(** * Verification of juju-core's state layer: the multiwatcher store and
    manager, state bootstrap (open / initialize) and constraints. *)

From Stdlib Require Import ZArith List Bool Lia Sorting.Sorted Ascii String.
From Stdlib Require DecimalN.
From stdpp Require Import base gmap strings list.

Import ListNotations.

(* ===================================================================== *)
(** ** Entities as seen by the multiwatcher (state/multiwatcher tests)    *)
(* ===================================================================== *)

(** The entity infos of the multiwatcher tests: [MachineInfo{Id, InstanceId}]
    and [ServiceInfo{Name, Exposed}], a tagged variant as the engine sees it. *)
Inductive EntityInfo :=
| MachineInfo (Id InstanceId : string)
| ServiceInfo (Name : string) (Exposed : bool).

#[global] Instance EntityInfo_eq_dec : EqDecision EntityInfo.
Proof. solve_decision. Defined.

(** [testInfoId{kind, id}]. *)
Definition InfoId : Type := (string * string)%type.

(** [idForInfo]: the identifier projection used by the backing. *)
Definition idForInfo (i : EntityInfo) : InfoId :=
  match i with
  | MachineInfo id _ => ("machine"%string, id)
  | ServiceInfo name _ => ("service"%string, name)
  end.

(** [params.Delta{Removed, Entity}]. *)
Record Delta := mkDelta { Removed : bool; Entity : EntityInfo }.

Module StateOpen.

(** The calls made on the ZooKeeper connection. *)
Inductive zkCall :=
| ZkDial (servers : string)
| ZkExists (path : string)
| ZkExistsW (path : string)
| ZkCreate (path : string)
| ZkClose.

(** The ensemble as the code sees it: its nodes, the calls made so far
    (oldest first), the error the server answers a call with (if any), the
    first session event, and what the watch on a node delivers before the
    timeout ([None]: nothing, the timeout fires). *)
Record World := mkWorld {
  nodes : gset string;
  calls : list zkCall;
  failing : zkCall -> option string;
  sessionOk : bool;
  watchEvent : option (bool * string)
}.

(** Go's [(value, error)] results. *)
Inductive result (A : Type) := Ok (a : A) | Err (msg : string).
Arguments Ok {A} a.
Arguments Err {A} msg.

Definition M (A : Type) : Type := World -> World * result A.

Definition ret {A} (a : A) : M A := fun w => (w, Ok a).
Definition fail {A} (msg : string) : M A := fun w => (w, Err msg).
Definition bind {A B} (m : M A) (f : A -> M B) : M B :=
  fun w => match m w with
           | (w', Ok a) => f a w'
           | (w', Err e) => (w', Err e)
           end.

#[local] Notation "x <-- m ; k" := (bind m (fun x => k)) (at level 100, m at level 90, right associativity).
#[local] Notation "m ;; k" := (bind m (fun _ => k)) (at level 100, right associativity).

Definition logCall (c : zkCall) (w : World) : World :=
  mkWorld (nodes w) (calls w ++ [c]) (failing w) (sessionOk w) (watchEvent w).

Definition setNodes (ns : gset string) (w : World) : World :=
  mkWorld ns (calls w) (failing w) (sessionOk w) (watchEvent w).

(** A call reaches the server, which either fails it or answers it. *)
Definition request {A} (c : zkCall) (k : M A) : M A :=
  fun w => let w := logCall c w in
           match failing w c with
           | Some e => (w, Err e)
           | None => k w
           end.

(** [zookeeper.Dial]; the result is whether the first session event is Ok. *)
Definition Dial (servers : string) : M bool :=
  request (ZkDial servers) (fun w => (w, Ok (sessionOk w))).

(** [zk.Exists(path)]: whether the stat is non-nil. *)
Definition Exists (path : string) : M bool :=
  request (ZkExists path) (fun w => (w, Ok (bool_decide (path ∈ nodes w)))).

(** [zk.ExistsW(path)]: the stat and the watch's event. *)
Definition ExistsW (path : string) : M (bool * option (bool * string)) :=
  request (ZkExistsW path) (fun w => (w, Ok (bool_decide (path ∈ nodes w), watchEvent w))).

(** [zk.Create(path, "", 0, zkPermAll)]: fails on an existing node. *)
Definition Create (path : string) : M unit :=
  request (ZkCreate path)
    (fun w => if decide (path ∈ nodes w) then (w, Err "node exists")
              else (setNodes ({[path]} ∪ nodes w) w, Ok tt)).

Definition Close : M unit := request ZkClose (ret tt).

(** [strings.Join]. *)
Definition join (sep : string) (l : list string) : string :=
  match l with
  | [] => ""
  | x :: l' => List.fold_left (fun acc y => String.append acc (String.append sep y)) l' x
  end.

(** [Info]. *)
Record Info := mkInfo { Addrs : list string }.

(** The connection held by a [State]. *)
Definition State : Type := unit.

(** [open]. *)
Definition open (info : Info) : M State :=
  match Addrs info with
  | [] => fail "no zookeeper addresses"
  | _ =>
      ok <-- Dial (join "," (Addrs info));
      if ok then ret tt else fail "Could not connect to zookeeper"
  end.

(** [State.initialized]. *)
Definition initialized : M bool := Exists "/initialized".

(** [State.initialize]. *)
Definition initialize : M unit :=
  already <-- initialized;
  if already then ret tt
  else
    Create "/charms";;
    Create "/services";;
    Create "/machines";;
    Create "/units";;
    Create "/relations";;
    Create "/initialized".

(** [Initialize]: on failure of [initialize] the connection is closed (the
    error of [Close] is dropped). *)
Definition Initialize (info : Info) : M State :=
  st <-- open info;
  fun w => match initialize w with
           | (w', Ok _) => (w', Ok st)
           | (w', Err e) => (fst (Close w'), Err e)
           end.

(** [State.waitForInitialization]. *)
Definition waitForInitialization : M unit :=
  r <-- ExistsW "/initialized";
  match r with
  | (true, _) => ret tt
  | (false, Some (true, _)) => ret tt
  | (false, Some (false, ev)) => fail (String.append "session error: " ev)
  | (false, None) => fail "timed out waiting for initialization"
  end.

(** [Open]. *)
Definition Open (info : Info) : M State :=
  st <-- open info;
  waitForInitialization;;
  ret st.

(** The paths of the [Create] calls in a call list. *)
Definition createdPaths (l : list zkCall) : list string :=
  List.flat_map (fun c => match c with ZkCreate p => [p] | _ => [] end) l.

Definition skeleton : list string :=
  ["/charms"; "/services"; "/machines"; "/units"; "/relations"].

(** Sample ensembles: one already initialized, one empty; no call fails. *)
Definition sampleInfo : Info := mkInfo ["localhost:2181"].
Definition initializedWorld : World := mkWorld {["/initialized"]} [] (fun _ => None) true None.
Definition freshWorld : World := mkWorld ∅ [] (fun _ => None) true None.

End StateOpen.


(* ===================================================================== *)
(** ** Constraints (src/state/constraints.go)                            *)
(* ===================================================================== *)

Module StateConstraints.

(** Go strings are byte strings; they are modelled as lists of ASCII
    characters. *)
Definition str := list ascii.
Definition lit (s : string) : str := list_ascii_of_string s.

Fixpoint streqb (a b : str) : bool :=
  match a, b with
  | [], [] => true
  | x :: a', y :: b' => Ascii.eqb x y && streqb a' b'
  | _, _ => false
  end.

(** The IEEE-754 double operations that [setMem] relies on:
    [strconv.ParseFloat(s, 64)] ([None] on error), [val < 0], [val * mult],
    the float literals [1.0], [1024], ... and [uint64(math.Ceil(val))]. *)
Class Float64 := {
  float64 : Type;
  ParseFloat : str -> option float64;
  fltz : float64 -> bool;
  fmul : float64 -> float64 -> float64;
  fconst : N -> float64;
  ceilUint64 : float64 -> N
}.

(** The four fields are pointers in Go: [None] is [nil]. *)
Record Constraints := mkConstraints {
  Arch : option str;
  CpuCores : option N;
  CpuPower : option N;
  Mem : option N
}.

Definition emptyConstraints : Constraints := mkConstraints None None None None.

(** The reasons carried by the errors built with [fmt.Errorf]. *)
Inductive reason :=
  | AlreadySet                 (* "already set" *)
  | NotRecognized (s : str)    (* "%q not recognized" *)
  | NotNonNegInt               (* "must be a non-negative integer" *)
  | NotNonNegFloat.            (* "must be a non-negative float with optional M/G/T/P suffix" *)

Inductive consError :=
  | Malformed (raw : str)            (* "malformed constraint %q" *)
  | Unknown (name : str)             (* "unknown constraint %q" *)
  | Bad (name : str) (r : reason).   (* "bad %q constraint: %v" *)

Inductive result (A E : Type) := Ok (a : A) | Err (e : E).
Arguments Ok {A E} a.
Arguments Err {A E} e.

(** ** Decimal rendering and parsing of unsigned integers *)

Definition digitChar (d : nat) : ascii := ascii_of_nat (48 + d).

Fixpoint uintDigits (d : Decimal.uint) : str :=
  match d with
  | Decimal.Nil => []
  | Decimal.D0 d => digitChar 0 :: uintDigits d
  | Decimal.D1 d => digitChar 1 :: uintDigits d
  | Decimal.D2 d => digitChar 2 :: uintDigits d
  | Decimal.D3 d => digitChar 3 :: uintDigits d
  | Decimal.D4 d => digitChar 4 :: uintDigits d
  | Decimal.D5 d => digitChar 5 :: uintDigits d
  | Decimal.D6 d => digitChar 6 :: uintDigits d
  | Decimal.D7 d => digitChar 7 :: uintDigits d
  | Decimal.D8 d => digitChar 8 :: uintDigits d
  | Decimal.D9 d => digitChar 9 :: uintDigits d
  end.

Definition consDigit (k : nat) (d : Decimal.uint) : option Decimal.uint :=
  match k with
  | 0 => Some (Decimal.D0 d) | 1 => Some (Decimal.D1 d) | 2 => Some (Decimal.D2 d)
  | 3 => Some (Decimal.D3 d) | 4 => Some (Decimal.D4 d) | 5 => Some (Decimal.D5 d)
  | 6 => Some (Decimal.D6 d) | 7 => Some (Decimal.D7 d) | 8 => Some (Decimal.D8 d)
  | 9 => Some (Decimal.D9 d) | _ => None
  end.

(** The digits of a string, [None] if some character is not a digit. *)
Fixpoint parseDigits (s : str) : option Decimal.uint :=
  match s with
  | [] => Some Decimal.Nil
  | c :: r =>
      match parseDigits r with
      | Some d => consDigit (nat_of_ascii c - 48) d
      | None => None
      end
  end.

(** [fmt.Sprintf("%d", i)] *)
Definition sprintfD (i : N) : str := uintDigits (N.to_uint i).

Definition uintStr (i : N) : str := if N.eqb i 0 then [] else sprintfD i.

(** [strconv.Atoi] on a 64-bit platform: an optional sign, then at least one
    decimal digit; values outside the range of [int] are an error. *)
Definition Atoi (s : str) : option Z :=
  let '(neg, ds) :=
    match s with
    | c :: r => if Ascii.eqb c "+"%char then (false, r)
                else if Ascii.eqb c "-"%char then (true, r) else (false, s)
    | [] => (false, s)
    end in
  match ds with
  | [] => None
  | _ =>
      match parseDigits ds with
      | None => None
      | Some d =>
          let v := Z.of_N (N.of_uint d) in
          let v := if neg then Z.opp v else v in
          if (- 2 ^ 63 <=? v)%Z && (v <=? 2 ^ 63 - 1)%Z then Some v else None
      end
  end.

(** ** Constraints.String *)

(** The local slice [strs] of [String]. *)
Definition strs (c : Constraints) : list str :=
  (match Arch c with Some a => [lit "arch=" ++ a] | None => [] end) ++
  (match CpuCores c with Some v => [lit "cpu-cores=" ++ uintStr v] | None => [] end) ++
  (match CpuPower c with Some v => [lit "cpu-power=" ++ uintStr v] | None => [] end) ++
  (match Mem c with
   | Some v => let s := uintStr v in
               let s := match s with [] => s | _ => s ++ lit "M" end in
               [lit "mem=" ++ s]
   | None => []
   end).

(** [strings.Join(l, sep)] for a one-character separator. *)
Fixpoint join (sep : ascii) (l : list str) : str :=
  match l with
  | [] => []
  | [x] => x
  | x :: r => x ++ sep :: join sep r
  end.

Definition String (c : Constraints) : str := join " "%char (strs c).

(** ** ParseConstraints *)

(** [unicode.IsSpace] on ASCII characters. *)
Definition isSpace (c : ascii) : bool :=
  let n := nat_of_ascii c in (Nat.eqb n 32 || ((9 <=? n) && (n <=? 13)))%nat.

Fixpoint trimLeft (s : str) : str :=
  match s with
  | c :: r => if isSpace c then trimLeft r else s
  | [] => []
  end.

Fixpoint trimRight (s : str) : str :=
  match s with
  | c :: r =>
      let r' := trimRight r in
      match r' with
      | [] => if isSpace c then [] else [c]
      | _ => c :: r'
      end
  | [] => []
  end.

(** [strings.TrimSpace] *)
Definition TrimSpace (s : str) : str := trimRight (trimLeft s).

(** [strings.Split(s, sep)] for a one-character separator: [n] separators
    give [n+1] pieces, so the empty string gives one empty piece. *)
Fixpoint Split (sep : ascii) (s : str) : list str :=
  match s with
  | [] => [[]]
  | c :: r =>
      if Ascii.eqb c sep then [] :: Split sep r
      else match Split sep r with
           | x :: xs => (c :: x) :: xs
           | [] => [[c]]
           end
  end.

(** [strings.Index(s, "=")], [None] for -1. *)
Fixpoint indexEq (s : str) : option nat :=
  match s with
  | [] => None
  | c :: r => if Ascii.eqb c "="%char then Some 0 else option_map S (indexEq r)
  end.

Section Parse.
Context {F : Float64}.

Definition setArch (c : Constraints) (s : str) : result Constraints reason :=
  match Arch c with
  | Some _ => Err AlreadySet
  | None =>
      if existsb (streqb s) [[]; lit "amd64"; lit "i386"; lit "arm"]
      then Ok (mkConstraints (Some s) (CpuCores c) (CpuPower c) (Mem c))
      else Err (NotRecognized s)
  end.

Definition parseUint64 (s : str) : result N reason :=
  match s with
  | [] => Ok 0%N
  | _ =>
      match Atoi s with
      | Some v => if (v <? 0)%Z then Err NotNonNegInt else Ok (Z.to_N v)
      | None => Err NotNonNegInt
      end
  end.

Definition setCpuCores (c : Constraints) (s : str) : result Constraints reason :=
  match CpuCores c with
  | Some _ => Err AlreadySet
  | None =>
      match parseUint64 s with
      | Ok v => Ok (mkConstraints (Arch c) (Some v) (CpuPower c) (Mem c))
      | Err e => Err e
      end
  end.

Definition setCpuPower (c : Constraints) (s : str) : result Constraints reason :=
  match CpuPower c with
  | Some _ => Err AlreadySet
  | None =>
      match parseUint64 s with
      | Ok v => Ok (mkConstraints (Arch c) (CpuCores c) (Some v) (Mem c))
      | Err e => Err e
      end
  end.

Definition mbSuffixes (s : str) : option float64 :=
  if streqb s (lit "M") then Some (fconst 1)
  else if streqb s (lit "G") then Some (fconst 1024)
  else if streqb s (lit "T") then Some (fconst (1024 * 1024))
  else if streqb s (lit "P") then Some (fconst (1024 * 1024 * 1024))
  else None.

(** [str[len(str)-1:]] of a non-empty string. *)
Definition lastByte (s : str) : str :=
  match rev s with c :: _ => [c] | [] => [] end.

Definition setMem (c : Constraints) (s : str) : result Constraints reason :=
  match Mem c with
  | Some _ => Err AlreadySet
  | None =>
      let value :=
        match s with
        | [] => Ok 0%N
        | _ =>
            let '(s, mult) :=
              match mbSuffixes (lastByte s) with
              | Some m => (removelast s, m)
              | None => (s, fconst 1)
              end in
            match ParseFloat s with
            | Some val => if fltz val then Err NotNonNegFloat
                          else Ok (ceilUint64 (fmul val mult))
            | None => Err NotNonNegFloat
            end
        end in
      match value with
      | Ok v => Ok (mkConstraints (Arch c) (CpuCores c) (CpuPower c) (Some v))
      | Err e => Err e
      end
  end.

Definition withName (name : str) (r : result Constraints reason)
    : result Constraints consError :=
  match r with Ok c => Ok c | Err e => Err (Bad name e) end.

Definition setRaw (c : Constraints) (raw : str) : result Constraints consError :=
  match indexEq raw with
  | None | Some 0 => Err (Malformed raw)
  | Some eq =>
      let name := firstn eq raw in
      let s := skipn (S eq) raw in
      if streqb name (lit "arch") then withName name (setArch c s)
      else if streqb name (lit "cpu-cores") then withName name (setCpuCores c s)
      else if streqb name (lit "cpu-power") then withName name (setCpuPower c s)
      else if streqb name (lit "mem") then withName name (setMem c s)
      else Err (Unknown name)
  end.

Fixpoint setRaws (c : Constraints) (raws : list str) : result Constraints consError :=
  match raws with
  | [] => Ok c
  | raw :: rest =>
      match raw with
      | [] => setRaws c rest
      | _ => match setRaw c raw with
             | Ok c' => setRaws c' rest
             | Err e => Err e
             end
      end
  end.

Fixpoint parseArgs (c : Constraints) (args : list str) : result Constraints consError :=
  match args with
  | [] => Ok c
  | arg :: rest =>
      match setRaws c (Split " "%char (TrimSpace arg)) with
      | Ok c' => parseArgs c' rest
      | Err e => Err e
      end
  end.

(** On error, Go returns [Constraints{}] with the error: no partial value. *)
Definition ParseConstraints (args : list str) : result Constraints consError :=
  parseArgs emptyConstraints args.

(** ** Notions used by the proofs *)






End Parse.

(** The name of a token [name=value]. *)
Definition tokName (t : str) : str :=
  match indexEq t with Some k => firstn k t | None => t end.

(** The names given in the arguments, in order. *)
Definition rawNames (args : list str) : list str :=
  map tokName (filter (fun raw => negb (streqb raw [])) (flat_map (fun a => Split " "%char (TrimSpace a)) args)).

Definition canonicalNames : list str :=
  [lit "arch"; lit "cpu-cores"; lit "cpu-power"; lit "mem"].

(** Whether an optional field is set. *)
Definition isSet {A} (o : option A) : bool := match o with Some _ => true | None => false end.


(** Empty pieces are skipped by [ParseConstraints]. *)
Definition nonEmpty (t : str) : bool := negb (streqb t []).




(** A double model where every value is a non-negative integer and the
    arithmetic is exact; it agrees with IEEE doubles on integers below
    2^53. *)
Definition exactFloat64 : Float64 := {|
  float64 := N;
  ParseFloat s := match s with [] => None | _ => option_map N.of_uint (parseDigits s) end;
  fltz _ := false;
  fmul := N.mul;
  fconst n := n;
  ceilUint64 v := v
|}.

(** ** Notions for the order independence of [ParseConstraints] *)

(** One field assignment made by [setRaw]. *)
Inductive field :=
  | FArch (s : str)
  | FCpuCores (v : N)
  | FCpuPower (v : N)
  | FMem (v : N).

Definition fieldName (f : field) : str :=
  match f with
  | FArch _ => lit "arch"
  | FCpuCores _ => lit "cpu-cores"
  | FCpuPower _ => lit "cpu-power"
  | FMem _ => lit "mem"
  end.

Definition fieldSet (c : Constraints) (f : field) : bool :=
  match f with
  | FArch _ => isSet (Arch c)
  | FCpuCores _ => isSet (CpuCores c)
  | FCpuPower _ => isSet (CpuPower c)
  | FMem _ => isSet (Mem c)
  end.

Definition assign (c : Constraints) (f : field) : Constraints :=
  match f with
  | FArch s => mkConstraints (Some s) (CpuCores c) (CpuPower c) (Mem c)
  | FCpuCores v => mkConstraints (Arch c) (Some v) (CpuPower c) (Mem c)
  | FCpuPower v => mkConstraints (Arch c) (CpuCores c) (Some v) (Mem c)
  | FMem v => mkConstraints (Arch c) (CpuCores c) (CpuPower c) (Some v)
  end.

(** The pieces [ParseConstraints] hands to [setRaw], empty ones included. *)
Definition tokens (args : list str) : list str :=
  flat_map (fun a => Split " "%char (TrimSpace a)) args.

(** ** Storing constraints: [constraintsDoc] and its transactions *)

(** [constraintsDoc]. *)
Record constraintsDoc := mkConstraintsDoc {
  dArch : option str;
  dCpuCores : option N;
  dCpuPower : option N;
  dMem : option N
}.

(** [newConstraintsDoc]. *)
Definition newConstraintsDoc (cons : Constraints) : constraintsDoc :=
  mkConstraintsDoc (Arch cons) (CpuCores cons) (CpuPower cons) (Mem cons).

(** [txn.DocMissing] and [txn.DocExists]. *)
Inductive txnAssert := DocMissing | DocExists.

(** [Insert: doc] and [Update: D{{"$set", doc}}]; the document has only
    the four fields, so [$set] replaces all of them. *)
Inductive txnChange := TxnInsert (d : constraintsDoc) | TxnSet (d : constraintsDoc).

(** [txn.Op]. *)
Record txnOp := mkOp {
  opC : string;
  opId : string;
  opAssert : txnAssert;
  opChange : txnChange
}.

(** The errors met here: [txn.ErrAborted], [NotFoundf("constraints")] and
    [fmt.Errorf("cannot set constraints: %v", err)]. *)
Inductive dbError :=
  | ErrAborted
  | NotFoundf (what : string)
  | CannotSetConstraints (e : dbError).

(** The part of [State] these functions use: the name of the constraints
    collection and the database behind it and behind [st.runner]. *)
(** The documents are kept by collection name and id. *)
Record StateDB := mkStateDB { constraintsName : string; db : gmap (string * string) constraintsDoc }.

Definition setDb (st : StateDB) (d : gmap (string * string) constraintsDoc) : StateDB := mkStateDB (constraintsName st) d.

Definition assertHolds (d : gmap (string * string) constraintsDoc) (op : txnOp) : bool :=
  match opAssert op, d !! (opC op, opId op) with
  | DocMissing, None => true
  | DocExists, Some _ => true
  | _, _ => false
  end.

Definition applyOp (d : gmap (string * string) constraintsDoc) (op : txnOp) : gmap (string * string) constraintsDoc :=
  match opChange op with
  | TxnInsert doc => <[(opC op, opId op) := doc]> d
  | TxnSet doc => <[(opC op, opId op) := doc]> d
  end.

(** [runner.Run(ops, "", nil)]: all assertions hold and every operation is
    applied, or the transaction aborts and nothing changes. *)
Definition Run (ops : list txnOp) (d : gmap (string * string) constraintsDoc) : result (gmap (string * string) constraintsDoc) dbError :=
  if forallb (assertHolds d) ops then Ok (List.fold_left applyOp ops d) else Err ErrAborted.

(** [createConstraintsOp]. *)
Definition createConstraintsOp (st : StateDB) (id : string) (cons : Constraints) : txnOp :=
  mkOp (constraintsName st) id DocMissing (TxnInsert (newConstraintsDoc cons)).

(** [readConstraints]. *)
Definition readConstraints (st : StateDB) (id : string) : result Constraints dbError :=
  match db st !! (constraintsName st, id) with
  | Some doc => Ok (mkConstraints (dArch doc) (dCpuCores doc) (dCpuPower doc) (dMem doc))
  | None => Err (NotFoundf "constraints")
  end.

(** [writeConstraints]. *)
Definition writeConstraints (st : StateDB) (id : string) (cons : Constraints)
  : StateDB * result unit dbError :=
  let ops := [mkOp (constraintsName st) id DocExists (TxnSet (newConstraintsDoc cons))] in
  match Run ops (db st) with
  | Ok d => (setDb st d, Ok tt)
  | Err e => (st, Err (CannotSetConstraints e))
  end.

End StateConstraints.

Module Multiwatcher.

(* ===================================================================== *)
(** ** The Store                                                          *)
(* ===================================================================== *)

(** [entityEntry]. *)
Record entityEntry := mkEntry {
  revno : Z;
  creationRevno : Z;
  removed : bool;
  refCount : Z;
  info : EntityInfo
}.

(** A list element: its identity (the [*list.Element] the map points to)
    and its value. *)
Definition element : Type := (nat * entityEntry)%type.

(** Modelled from the spec: the Store of the multiwatcher (multiwatcher.go is
    not among the sources; only its tests are).  [entities] maps an id to the
    list element holding its entry; [entryList] is the list from front
    (oldest revno) to back (newest revno); [nextElem] allocates element
    identities.  Revision numbers are [int64] in Go; the counter is
    monotonic and modelled as [Z] without wrap-around. *)
Record Store := mkStore {
  latestRevno : Z;
  entities : gmap InfoId nat;
  entryList : list element;
  nextElem : nat
}.

(** [NewStore()]. *)
Definition NewStore : Store := mkStore 0 ∅ [] 0.

(** [elem.Value] for the element with identity [p]. *)
Definition lookupElem (p : nat) (l : list element) : option entityEntry :=
  match List.find (fun x => Nat.eqb (fst x) p) l with
  | Some x => Some (snd x)
  | None => None
  end.

(** [list.Remove(elem)]. *)
Definition removeElem (p : nat) (l : list element) : list element :=
  List.filter (fun x => negb (Nat.eqb (fst x) p)) l.

(** Overwrite the value of element [p] in place. *)
Definition updateElem (p : nat) (e : entityEntry) (l : list element) : list element :=
  List.map (fun x => if Nat.eqb (fst x) p then (p, e) else x) l.

(** [list.MoveToBack(elem)] after changing its value to [e]. *)
Definition moveToBack (p : nat) (e : entityEntry) (l : list element) : list element :=
  removeElem p l ++ [(p, e)].

(** The entry stored for [id], through the map and the list. *)
Definition entryOf (a : Store) (id : InfoId) : option entityEntry :=
  match entities a !! id with
  | Some p => lookupElem p (entryList a)
  | None => None
  end.

Definition setLatest (a : Store) (r : Z) : Store :=
  mkStore r (entities a) (entryList a) (nextElem a).

Definition setList (a : Store) (l : list element) : Store :=
  mkStore (latestRevno a) (entities a) l (nextElem a).

(** Modelled from the spec: [add(id, info)]: a fresh entry with
    [revno = creationRevno = ++latestRevno] and [refCount = 0], appended at
    the back. *)
Definition add (a : Store) (id : InfoId) (inf : EntityInfo) : Store :=
  let r := (latestRevno a + 1)%Z in
  let p := nextElem a in
  mkStore r (<[id := p]> (entities a))
    (entryList a ++ [(p, mkEntry r r false 0 inf)]) (S p).

(** Modelled from the spec: [delete(id)]: removes the entry from the list and
    the map; does not bump [latestRevno]. *)
Definition delete (a : Store) (id : InfoId) : Store :=
  match entities a !! id with
  | Some p => mkStore (latestRevno a) (base.delete id (entities a))
                (removeElem p (entryList a)) (nextElem a)
  | None => a
  end.

(** Modelled from the spec: [decRef(entry, id)]: decrement [refCount]; if the
    result is zero and the entry is removed, [delete(id)]; otherwise no
    structural change. *)
Definition decRef (a : Store) (id : InfoId) : Store :=
  match entities a !! id with
  | Some p =>
      match lookupElem p (entryList a) with
      | Some e =>
          let e' := mkEntry (revno e) (creationRevno e) (removed e)
                      (refCount e - 1) (info e) in
          let a' := setList a (updateElem p e' (entryList a)) in
          if Z.eqb (refCount e') 0 && removed e' then delete a' id else a'
      | None => a
      end
  | None => a
  end.

(** Increment the [refCount] of the entry for [id]. *)
Definition incRef (a : Store) (id : InfoId) : Store :=
  match entities a !! id with
  | Some p =>
      match lookupElem p (entryList a) with
      | Some e =>
          setList a (updateElem p (mkEntry (revno e) (creationRevno e) (removed e)
                                     (refCount e + 1) (info e)) (entryList a))
      | None => a
      end
  | None => a
  end.

(** Modelled from the spec: [Update(id, info-or-nil)], following the entry
    lifecycle of the spec:
    - [Update(id, nil)] on an absent id or on an entry already removed is
      ignored (no revno bump; as the test "mark removed on nonexistent
      entry" expects);
    - [Update(id, nil)] on a live entry bumps [latestRevno]; with
      [refCount = 0] the entry is simply deleted, otherwise it is marked
      removed, gets the new revno and moves to the back;
    - [Update(id, info)] on an absent id adds a fresh entry;
    - [Update(id, info)] on a present entry refreshes it: new info, new revno
      (always bumped, as the spec's design notes require), moved to the
      back.  The spec gives no separate rule for a present entry that is
      already marked removed; the refresh rule is applied as written (the
      [removed] flag is left as it is). *)
Definition Update (a : Store) (id : InfoId) (oinfo : option EntityInfo) : Store :=
  match oinfo with
  | None =>
      match entities a !! id with
      | Some p =>
          match lookupElem p (entryList a) with
          | Some e =>
              if removed e then a
              else
                let r := (latestRevno a + 1)%Z in
                if Z.eqb (refCount e) 0 then delete (setLatest a r) id
                else mkStore r (entities a)
                       (moveToBack p (mkEntry r (creationRevno e) true (refCount e) (info e))
                          (entryList a)) (nextElem a)
          | None => a
          end
      | None => a
      end
  | Some inf =>
      match entities a !! id with
      | Some p =>
          match lookupElem p (entryList a) with
          | Some e =>
              let r := (latestRevno a + 1)%Z in
              mkStore r (entities a)
                (moveToBack p (mkEntry r (creationRevno e) (removed e) (refCount e) inf)
                   (entryList a)) (nextElem a)
          | None => a
          end
      | None => add a id inf
      end
  end.

(** The entry [e] with its [refCount] set to [k]. *)
Definition setRef (e : entityEntry) (k : Z) : entityEntry :=
  mkEntry (revno e) (creationRevno e) (removed e) k (info e).

(** The effect of [Update(id, o)] on the entry [oe] for [id], in a store
    whose [latestRevno] is [L] (a summary used in the proofs). *)
Definition updatedEntry (L : Z) (oe : option entityEntry) (o : option EntityInfo)
  : option entityEntry :=
  match o, oe with
  | None, Some e =>
      if removed e then Some e
      else if Z.eqb (refCount e) 0 then None
      else Some (mkEntry (L + 1) (creationRevno e) true (refCount e) (info e))
  | None, None => None
  | Some inf, Some e => Some (mkEntry (L + 1) (creationRevno e) (removed e) (refCount e) inf)
  | Some inf, None => Some (mkEntry (L + 1) (L + 1) false 0 inf)
  end.

Definition updatedLatest (L : Z) (oe : option entityEntry) (o : option EntityInfo) : Z :=
  match o, oe with
  | None, Some e => if removed e then L else (L + 1)%Z
  | None, None => L
  | Some _, _ => (L + 1)%Z
  end.

(** The effect of [decRef] on the entry. *)
Definition decEntry (oe : option entityEntry) : option entityEntry :=
  match oe with
  | Some e => if Z.eqb (refCount e - 1) 0 && removed e then None else Some (setRef e (refCount e - 1))
  | None => None
  end.

(** The delta an entry is translated to. *)
Definition toDelta (e : entityEntry) : Delta := mkDelta (removed e) (info e).

(** Whether an entry is reported to someone who has seen revision [r]: it
    changed after [r], and it is not a removal of an entity created after
    [r] (TestChangesSince: "something that never saw m0 does not get
    informed of its removal"). *)
Definition reported (r : Z) (e : entityEntry) : bool :=
  Z.ltb r (revno e) && negb (removed e && Z.ltb r (creationRevno e)).

(** Walk back from the tail while [entry.revno > revno]; the suffix found. *)
Fixpoint suffixAfter (r : Z) (rl : list element) : list element :=
  match rl with
  | [] => []
  | x :: rest => if Z.ltb r (revno (snd x)) then x :: suffixAfter r rest else []
  end.

(** Modelled from the spec: [ChangesSince(revno)]: the suffix of entries with
    [revno > revno] is found by walking back from the tail until
    [entry.revno <= revno]; it is returned front to back, translated to
    deltas, leaving out removals of entities the caller never saw
    ([creationRevno > revno]), as spec 4.2 and TestChangesSince require. *)
Definition ChangesSince (a : Store) (r : Z) : list Delta :=
  List.map (fun x => toDelta (snd x))
    (List.filter (fun x => negb (removed (snd x) && Z.ltb r (creationRevno (snd x))))
       (List.rev (suffixAfter r (List.rev (entryList a))))).

(** Test helpers [storeAdd] and [StoreIncRef]. *)
Definition storeAdd (a : Store) (inf : EntityInfo) : Store := add a (idForInfo inf) inf.
Definition StoreIncRef (a : Store) (id : InfoId) : Store := incRef a id.

(** The contents as [assertStoreContents] lists them: oldest first. *)
Definition contents (a : Store) : list entityEntry := List.map snd (entryList a).

(* ===================================================================== *)
(** ** The StoreManager                                                   *)
(* ===================================================================== *)

(** Modelled from the spec: the manager state.  Watchers and requests are
    named by numbers.  [wrevno] holds [Watcher.revno] of the watchers it has
    served (0 for the others); [waiting] maps a watcher to its pending
    requests, newest first; [stoppedW] is the set of stopped watchers; a
    reply sent on a request's [reply] channel, with the request's [changes],
    is appended to [replies] as (watcher, request, value, changes). *)
Record StoreManager := mkManager {
  all : Store;
  wrevno : gmap nat Z;
  waiting : gmap nat (list nat);
  stoppedW : gset nat;
  replies : list (nat * nat * bool * list Delta)
}.

Definition newStoreManagerNoRun : StoreManager := mkManager NewStore ∅ ∅ ∅ [].

(** [w.revno]. *)
Definition watcherRevno (sm : StoreManager) (w : nat) : Z :=
  match wrevno sm !! w with Some r => r | None => 0%Z end.

Definition pending (sm : StoreManager) (w : nat) : list nat :=
  match waiting sm !! w with Some l => l | None => [] end.

(** Modelled from the spec: the refcount protocol of [respond()] for a
    watcher that has just been given every change after [r]: an entity
    created after [r] and delivered alive is now seen by the watcher
    ([refCount++]); an entity seen before and delivered as removed is
    [decRef]ed, which may delete the tombstone.  (Entities updated but seen
    before keep their count, as the spec's invariant 4 and scenario (A)
    require.) *)
Definition seenStep (r : Z) (a : Store) (x : element) : Store :=
  let e := snd x in
  let id := idForInfo (info e) in
  if Z.ltb r (revno e) then
    if Z.ltb r (creationRevno e) then
      (if removed e then a else incRef a id)
    else if removed e then decRef a id else a
  else a.

Definition seen (a : Store) (r : Z) : Store :=
  List.fold_left (seenStep r) (entryList a) a.

(** Modelled from the spec: on a stop request, every entry the watcher has
    seen alive and not yet seen removed ([creationRevno <= w.revno] and (not
    removed or [revno > w.revno])) is [decRef]ed. *)
Definition stopStep (r : Z) (a : Store) (x : element) : Store :=
  let e := snd x in
  if Z.leb (creationRevno e) r && (negb (removed e) || Z.ltb r (revno e))
  then decRef a (idForInfo (info e)) else a.

(** Modelled from the spec: [handle(req)] for a stop request
    ([req.reply == nil]): reply false to every pending request of the
    watcher (newest first), release its references (only when
    [w.revno > 0]) and mark it stopped. *)
Definition handleStop (sm : StoreManager) (w : nat) : StoreManager :=
  let r := watcherRevno sm w in
  mkManager
    (if Z.ltb 0 r then List.fold_left (stopStep r) (entryList (all sm)) (all sm)
     else all sm)
    (base.delete w (wrevno sm))
    (base.delete w (waiting sm))
    ({[w]} ∪ stoppedW sm)
    (replies sm ++ List.map (fun q => (w, q, false, [])) (pending sm w)).

(** Modelled from the spec: [handle(req)] for a [Next()] request: prepend it
    to [waiting[req.w]]; a stopped watcher's request is replied false. *)
Definition handleNext (sm : StoreManager) (w q : nat) : StoreManager :=
  if decide (w ∈ stoppedW sm) then
    mkManager (all sm) (wrevno sm) (waiting sm) (stoppedW sm)
      (replies sm ++ [(w, q, false, [])])
  else
    mkManager (all sm) (wrevno sm) (<[w := q :: pending sm w]> (waiting sm))
      (stoppedW sm) (replies sm).

(** Modelled from the spec: the body of [respond()] for one watcher [w]: when
    it has pending requests and [all.latestRevno > w.revno], the newest
    pending request (the head of the LIFO list; spec 4.2, scenario (E) and
    TestRespondMultiple) is replied true with [ChangesSince(w.revno)], the
    watcher's revno becomes [latestRevno], and the refcounts are adjusted. *)
Definition respondOne (sm : StoreManager) (w : nat) : StoreManager :=
  match waiting sm !! w with
  | Some (q :: rest) =>
      let r := watcherRevno sm w in
      let a := all sm in
      if Z.ltb r (latestRevno a) then
        mkManager (seen a r) (<[w := latestRevno a]> (wrevno sm))
          (match rest with
           | [] => base.delete w (waiting sm)
           | _ => <[w := rest]> (waiting sm)
           end)
          (stoppedW sm)
          (replies sm ++ [(w, q, true, ChangesSince a r)])
      else sm
  | _ => sm
  end.

(** [respond()]: every watcher with pending requests in turn (the order of a
    Go map iteration is unspecified; here the order of the gmap). *)
Definition respond (sm : StoreManager) : StoreManager :=
  List.fold_left respondOne (elements (dom (waiting sm))) sm.

(** The events reaching the manager: a backing change found the entity
    ([Update(IdForInfo(info), info)]) or did not ([Update(id, nil)]), a
    watcher's [Next()] or [Stop()] request, and a [respond()] pass (whole, or
    the step of one watcher). *)
Inductive event :=
| EvPut (inf : EntityInfo)
| EvRemove (id : InfoId)
| EvNext (w q : nat)
| EvStop (w : nat)
| EvRespond (w : nat)
| EvRespondAll.

Definition setAll (sm : StoreManager) (a : Store) : StoreManager :=
  mkManager a (wrevno sm) (waiting sm) (stoppedW sm) (replies sm).

Definition step (sm : StoreManager) (ev : event) : StoreManager :=
  match ev with
  | EvPut inf => setAll sm (Update (all sm) (idForInfo inf) (Some inf))
  | EvRemove id => setAll sm (Update (all sm) id None)
  | EvNext w q => handleNext sm w q
  | EvStop w => handleStop sm w
  | EvRespond w => respondOne sm w
  | EvRespondAll => respond sm
  end.

Definition run (evs : list event) : StoreManager :=
  List.fold_left step evs newStoreManagerNoRun.









(** Revision numbers strictly increase from front to back. *)
Definition revnoSorted (l : list element) : Prop :=
  StronglySorted (fun x y => (revno (snd x) < revno (snd y))%Z) l.


(* ===================================================================== *)
(** ** Well-formed stores                                                 *)
(* ===================================================================== *)

(** The store invariants: element identities are distinct and allocated;
    every element's id (the [idForInfo] of its info) maps to that element,
    and every mapping points to an element of the list with that id;
    revnos strictly increase front to back; every entry has
    [1 <= creationRevno <= revno <= latestRevno]. *)
Record store_wf (a : Store) : Prop := {
  wf_nodup : List.NoDup (List.map fst (entryList a));
  wf_fresh : forall x, In x (entryList a) -> (fst x < nextElem a)%nat;
  wf_keyed : forall x, In x (entryList a) ->
               entities a !! idForInfo (info (snd x)) = Some (fst x);
  wf_mapped : forall id p, entities a !! id = Some p ->
                exists e, In (p, e) (entryList a) /\ idForInfo (info e) = id;
  wf_sorted : revnoSorted (entryList a);
  wf_revnos : forall x, In x (entryList a) ->
                (1 <= creationRevno (snd x) <= revno (snd x) /\ revno (snd x) <= latestRevno a)%Z;
  wf_latest : (0 <= latestRevno a)%Z
}.

(** A decision procedure for [store_wf], used on concrete stores. *)
Fixpoint nodupb (l : list nat) : bool :=
  match l with
  | [] => true
  | x :: l' => negb (List.existsb (Nat.eqb x) l') && nodupb l'
  end.

Fixpoint sortedb (l : list element) : bool :=
  match l with
  | [] => true
  | x :: l' => List.forallb (fun y => Z.ltb (revno (snd x)) (revno (snd y))) l' && sortedb l'
  end.

Definition store_wfb (a : Store) : bool :=
  let l := entryList a in
  nodupb (List.map fst l) &&
  List.forallb (fun x => Nat.ltb (fst x) (nextElem a)) l &&
  List.forallb (fun x => bool_decide (entities a !! idForInfo (info (snd x)) = Some (fst x))) l &&
  List.forallb (fun kv => List.existsb (fun x => Nat.eqb (fst x) (snd kv) &&
                                               bool_decide (idForInfo (info (snd x)) = fst kv)) l)
    (map_to_list (entities a)) &&
  sortedb l &&
  List.forallb (fun x => Z.leb 1 (creationRevno (snd x)) && Z.leb (creationRevno (snd x)) (revno (snd x))
                         && Z.leb (revno (snd x)) (latestRevno a)) l &&
  Z.leb 0 (latestRevno a).

(** The store built by TestChangesSince: machines 0, 1 and 2 added, machine 1
    updated, machine 0 referenced once and then removed. *)
Definition testChangesSinceStore : Store :=
  let a := storeAdd (storeAdd (storeAdd NewStore (MachineInfo "0" "")) (MachineInfo "1" ""))
             (MachineInfo "2" "") in
  let a := Update a (idForInfo (MachineInfo "1" "foo")) (Some (MachineInfo "1" "foo")) in
  let a := StoreIncRef a ("machine", "0") in
  Update a (idForInfo (MachineInfo "0" "")) None.

(** A sequence of [Update] calls, and whether each [Update(id, info)] in it
    names the id of its info ([IdForInfo(info)], as the backing calls it). *)
Definition applyUpdates (a : Store) (us : list (InfoId * option EntityInfo)) : Store :=
  List.fold_left (fun a u => Update a (fst u) (snd u)) us a.

Definition updatesMatch (us : list (InfoId * option EntityInfo)) : bool :=
  List.forallb (fun u => match snd u with
                         | Some inf => bool_decide (idForInfo inf = fst u)
                         | None => true
                         end) us.

(* ===================================================================== *)
(** ** Reference counts and watcher views (proof notions)                *)
(* ===================================================================== *)

(** Whether a watcher that has seen revision [r] has seen the entity of [e]
    alive and not yet its removal. *)
Definition seesb (r : Z) (e : entityEntry) : bool :=
  Z.leb (creationRevno e) r && negb (removed e && Z.leb (revno e) r).

(** The number of served watchers that see [e]. *)
Definition cnt (wr : gmap nat Z) (e : entityEntry) : Z :=
  Z.of_nat (List.length (List.filter (fun kv => seesb (snd kv) e) (map_to_list wr))).












(** The trace of scenario (C) followed by a late watcher 2: machine 0 added,
    seen by watcher 1, removed, the removal delivered to watcher 1; then
    watcher 2 asks for changes. *)
Definition m0 : EntityInfo := MachineInfo "0" "".


(** The replies sent to watcher [w], in order. *)
Definition repliesFor (w : nat) (sm : StoreManager) : list (nat * nat * bool * list Delta) :=
  List.filter (fun x => Nat.eqb (fst (fst (fst x))) w) (replies sm).

(** TestRespondMultiple: watcher 1 issues request 0, then request 1, then
    machine 0 is added. *)
Definition traceMultiple : list event := [EvNext 1 0; EvNext 1 1; EvPut m0].


(* ===================================================================== *)
(** ** The manager's run loop and its termination                        *)
(* ===================================================================== *)

(** Modelled from the spec: the loop of the [StoreManager] together with its
    tomb.  [dead] is set once the loop has exited, [runErr] is the error it
    exited with ([nil] on a plain [Stop()], the backing's error when
    [Changed] or [GetAll] failed). *)
Record Runner := mkRunner {
  mgr : StoreManager;
  dead : bool;
  runErr : option string
}.

Inductive runEvent :=
| REv (ev : event)
| RStop
| RBackingError (msg : string).

(** [finish()]: every pending request of every watcher is replied false. *)
Definition finish (sm : StoreManager) : StoreManager :=
  mkManager (all sm) (wrevno sm) ∅ (stoppedW sm)
    (replies sm ++
     List.concat (List.map (fun wq => List.map (fun q => (fst wq, q, false, @nil Delta)) (snd wq))
                   (map_to_list (waiting sm)))).

(** The loop exits with error [e]: the tomb is killed, then [finish()]. *)
Definition kill (rs : Runner) (e : option string) : Runner :=
  mkRunner (finish (mgr rs)) true e.

(** Once the loop has exited nothing reaches the manager any more. *)
Definition runStep (rs : Runner) (re : runEvent) : Runner :=
  if dead rs then rs
  else match re with
       | REv ev => mkRunner (step (mgr rs) ev) false (runErr rs)
       | RStop => kill rs None
       | RBackingError msg => kill rs (Some msg)
       end.

Definition runAll (rs : Runner) (res : list runEvent) : Runner := List.fold_left runStep res rs.

Definition newRunner : Runner := mkRunner newStoreManagerNoRun false None.

(** The error a watcher surfaces when its request is turned down:
    [ErrWatcherStopped] unless the tomb holds an error. *)
Definition ErrWatcherStopped : string := "state watcher was stopped".

Definition errText (e : option string) : string :=
  match e with Some msg => msg | None => ErrWatcherStopped end.

Inductive nextResult :=
| NextDeltas (ds : list Delta)
| NextError (msg : string)
| NextPending.

(** The reply sent to request [q] of watcher [w], if any. *)
Definition replyTo (w q : nat) (rs : list (nat * nat * bool * list Delta))
  : option (nat * nat * bool * list Delta) :=
  List.find (fun x => Nat.eqb (fst (fst (fst x))) w && Nat.eqb (snd (fst (fst x))) q) rs.

(** Modelled from the spec: what [Watcher.Next()] returns for its request
    [q]: the changes on a true reply; on a false reply, or when the loop has
    already exited (the request is never queued), the tomb's error or
    [ErrWatcherStopped]; otherwise the call is still blocked. *)
Definition nextOutcome (rs : Runner) (w q : nat) : nextResult :=
  match replyTo w q (replies (mgr rs)) with
  | Some (_, _, true, ch) => NextDeltas ch
  | Some (_, _, false, _) => NextError (errText (runErr rs))
  | None => if dead rs then NextError (errText (runErr rs)) else NextPending
  end.

(** [StoreManager.Stop()]: kill the tomb with [nil] and wait; the result is
    the error the loop exited with. *)
Definition managerStop (rs : Runner) : Runner * option string :=
  let rs' := runStep rs RStop in (rs', runErr rs').

(** TestRunStop and TestWatcherStopBecauseStoreManagerError. *)
Definition traceRunStop : list runEvent := [RStop; REv (EvNext 0 0)].
Definition traceBackingError : list runEvent :=
  [REv (EvPut m0); REv (EvNext 0 0); REv EvRespondAll; REv (EvNext 0 1);
   RBackingError "some error"].


(* ===================================================================== *)
(** ** Lemmas on list elements                                            *)
(* ===================================================================== *)

Lemma lookupElem_In p l e : lookupElem p l = Some e -> In (p, e) l.
Proof.
  unfold lookupElem. destruct (List.find (fun x => Nat.eqb (fst x) p) l) as [[p' e']|] eqn:Hf; [|discriminate].
  intros [= <-]. pose proof (List.find_some _ _ Hf) as [Hin Heq].
  apply Nat.eqb_eq in Heq. simpl in Heq. subst. exact Hin.
Qed.

Lemma In_lookupElem p l e : List.NoDup (List.map fst l) -> In (p, e) l -> lookupElem p l = Some e.
Proof.
  induction l as [|[p' e'] l IH]; simpl; [tauto|].
  intros Hnd Hin. apply NoDup_cons_iff in Hnd as [Hnin Hnd].
  unfold lookupElem in *. simpl. destruct (Nat.eqb p' p) eqn:E.
  - apply Nat.eqb_eq in E. subst. destruct Hin as [[= ->]|Hin]; [reflexivity|].
    exfalso. apply Hnin. apply (List.in_map fst) in Hin. exact Hin.
  - destruct Hin as [[= -> ->]|Hin]; [rewrite Nat.eqb_refl in E; discriminate|].
    apply IH; assumption.
Qed.

Lemma lookupElem_None p l e : lookupElem p l = None -> ~ In (p, e) l.
Proof.
  unfold lookupElem. destruct (List.find (fun x => Nat.eqb (fst x) p) l) eqn:Hf; [discriminate|].
  intros _ Hin. pose proof (List.find_none _ _ Hf _ Hin) as H. simpl in H.
  rewrite Nat.eqb_refl in H. discriminate.
Qed.

Lemma In_removeElem p l x : In x (removeElem p l) <-> In x l /\ fst x <> p.
Proof.
  unfold removeElem. rewrite List.filter_In. rewrite negb_true_iff, Nat.eqb_neq. tauto.
Qed.

Lemma NoDup_map_filter {A B} (f : A -> B) (g : A -> bool) l :
  List.NoDup (List.map f l) -> List.NoDup (List.map f (List.filter g l)).
Proof.
  induction l as [|x l IH]; simpl; [auto|]. intros Hnd.
  apply NoDup_cons_iff in Hnd as [Hnin Hnd]. destruct (g x); simpl; [|auto].
  apply NoDup_cons_iff. split; [|auto]. intros Hin. apply Hnin.
  apply List.in_map_iff in Hin as [y [Hy Hin]]. apply List.filter_In in Hin as [Hin _].
  rewrite <- Hy. apply List.in_map. exact Hin.
Qed.

Lemma map_fst_updateElem p e l : List.map fst (updateElem p e l) = List.map fst l.
Proof.
  unfold updateElem. rewrite List.map_map. apply List.map_ext. intros [p' e'].
  simpl. destruct (Nat.eqb p' p) eqn:E; [apply Nat.eqb_eq in E; auto|reflexivity].
Qed.

Lemma In_updateElem p e l x :
  In x (updateElem p e l) <-> (In x l /\ fst x <> p) \/ (x = (p, e) /\ In p (List.map fst l)).
Proof.
  unfold updateElem. split.
  - intros Hx. apply List.in_map_iff in Hx as [[p' e'] [Hx Hin]].
    simpl in Hx. destruct (Nat.eqb p' p) eqn:E.
    + apply Nat.eqb_eq in E. subst. right. split; [reflexivity|].
      apply (List.in_map fst) in Hin. exact Hin.
    + apply Nat.eqb_neq in E. subst. left. auto.
  - intros [[Hin Hne]|[-> Hin]]; apply List.in_map_iff.
    + exists x. split; [|auto]. destruct (Nat.eqb (fst x) p) eqn:E; [|reflexivity].
      apply Nat.eqb_eq in E. contradiction.
    + apply List.in_map_iff in Hin as [[p' e'] [Hp Hin]]. simpl in Hp. subst.
      exists (p, e'). simpl. rewrite Nat.eqb_refl. auto.
Qed.

Lemma revnoSorted_filter g l : revnoSorted l -> revnoSorted (List.filter g l).
Proof.
  unfold revnoSorted. induction l as [|x l IH]; simpl; [auto|].
  intros Hs. apply StronglySorted_inv in Hs as [Hs Hf].
  destruct (g x); [|auto]. constructor; [auto|].
  apply List.Forall_forall. intros y Hy. apply List.filter_In in Hy as [Hy _].
  rewrite List.Forall_forall in Hf. auto.
Qed.

Lemma revnoSorted_snoc l y :
  revnoSorted l -> (forall x, In x l -> (revno (snd x) < revno (snd y))%Z) ->
  revnoSorted (l ++ [y]).
Proof.
  unfold revnoSorted. induction l as [|x l IH]; simpl; intros Hs Hlt.
  - constructor; constructor.
  - apply StronglySorted_inv in Hs as [Hs Hf]. constructor; [apply IH; auto|].
    apply List.Forall_app. split; [exact Hf|]. constructor; [apply Hlt; auto|constructor].
Qed.

Lemma revnoSorted_updateElem p e l :
  (forall x, In x l -> fst x = p -> revno (snd x) = revno e) ->
  revnoSorted l -> revnoSorted (updateElem p e l).
Proof.
  unfold revnoSorted, updateElem. induction l as [|x l IH]; simpl; intros Hr Hs; [constructor|].
  apply StronglySorted_inv in Hs as [Hs Hf].
  assert (Hx : revno (snd (if Nat.eqb (fst x) p then (p, e) else x)) = revno (snd x)).
  { destruct (Nat.eqb (fst x) p) eqn:E; [|reflexivity].
    apply Nat.eqb_eq in E. simpl. symmetry. apply Hr; auto. }
  constructor; [apply IH; auto|].
  rewrite List.Forall_map. rewrite List.Forall_forall in Hf |- *. intros y Hy.
  rewrite Hx. destruct (Nat.eqb (fst y) p) eqn:E; [|auto].
  apply Nat.eqb_eq in E. simpl. rewrite <- (Hr y); auto.
Qed.

Lemma NewStore_wf : store_wf NewStore.
Proof.
  constructor; simpl; try tauto; try lia.
  - constructor.
  - intros id p H. rewrite lookup_empty in H. discriminate.
  - constructor.
Qed.

Lemma entryOf_In a id e :
  store_wf a -> entryOf a id = Some e ->
  exists p, In (p, e) (entryList a) /\ idForInfo (info e) = id /\ entities a !! id = Some p.
Proof.
  intros Hwf. unfold entryOf. destruct (entities a !! id) as [p|] eqn:Hp; [|discriminate].
  intros Hl. apply lookupElem_In in Hl. exists p. split; [exact Hl|]. split; [|reflexivity].
  destruct (wf_mapped a Hwf id p Hp) as [e' [Hin' Hid']].
  pose proof (wf_keyed a Hwf _ Hl) as Hk. simpl in Hk.
  pose proof (wf_keyed a Hwf _ Hin') as Hk'. simpl in Hk'.
  assert (e = e').
  { pose proof (In_lookupElem p _ e (wf_nodup a Hwf) Hl).
    pose proof (In_lookupElem p _ e' (wf_nodup a Hwf) Hin'). congruence. }
  subst. reflexivity.
Qed.

Lemma In_entryOf a p e :
  store_wf a -> In (p, e) (entryList a) -> entryOf a (idForInfo (info e)) = Some e.
Proof.
  intros Hwf Hin. unfold entryOf. pose proof (wf_keyed a Hwf _ Hin) as Hk. simpl in Hk.
  rewrite Hk.
  apply In_lookupElem; [apply wf_nodup; exact Hwf|exact Hin].
Qed.

Lemma entryOf_None_entities a id :
  store_wf a -> entryOf a id = None -> entities a !! id = None.
Proof.
  intros Hwf. unfold entryOf. destruct (entities a !! id) as [p|] eqn:Hp; [|auto].
  destruct (wf_mapped a Hwf id p Hp) as [e [Hin _]].
  rewrite (In_lookupElem p _ e (wf_nodup a Hwf) Hin). discriminate.
Qed.

Lemma entryOf_Some_entities a id e :
  store_wf a -> entryOf a id = Some e ->
  exists p, entities a !! id = Some p /\ lookupElem p (entryList a) = Some e.
Proof.
  unfold entryOf. destruct (entities a !! id) as [p|]; [|discriminate]. eauto.
Qed.

Lemma In_same_id a x y :
  store_wf a -> In x (entryList a) -> In y (entryList a) ->
  idForInfo (info (snd x)) = idForInfo (info (snd y)) -> x = y.
Proof.
  intros Hwf Hx Hy Hid. pose proof (wf_keyed a Hwf _ Hx) as Kx.
  pose proof (wf_keyed a Hwf _ Hy) as Ky. rewrite Hid in Kx.
  rewrite Kx in Ky. injection Ky as Hp. destruct x as [px ex], y as [py ey].
  simpl in *. subst.
  pose proof (In_lookupElem py _ ex (wf_nodup a Hwf) Hx).
  pose proof (In_lookupElem py _ ey (wf_nodup a Hwf) Hy). congruence.
Qed.


Lemma entryOf_iff a id e :
  store_wf a ->
  entryOf a id = Some e <-> exists p, In (p, e) (entryList a) /\ idForInfo (info e) = id.
Proof.
  intros Hwf. split.
  - intros H. destruct (entryOf_In a id e Hwf H) as [p [Hin [Hid _]]]. eauto.
  - intros [p [Hin <-]]. eapply In_entryOf; eauto.
Qed.

(** [entryOf] is determined by the elements of the list. *)
Lemma entryOf_eq a id o :
  store_wf a ->
  (forall e, (exists p, In (p, e) (entryList a) /\ idForInfo (info e) = id) <-> o = Some e) ->
  entryOf a id = o.
Proof.
  intros Hwf H. destruct (entryOf a id) as [e|] eqn:He.
  - apply (entryOf_iff a id e Hwf) in He. symmetry. apply H. exact He.
  - destruct o as [e|]; [|reflexivity]. exfalso.
    assert (Hx : exists p, In (p, e) (entryList a) /\ idForInfo (info e) = id) by (apply H; auto).
    apply (entryOf_iff a id e Hwf) in Hx. congruence.
Qed.

Lemma wf_elem_id a p e :
  store_wf a -> In (p, e) (entryList a) ->
  forall x, In x (entryList a) -> (fst x = p <-> idForInfo (info (snd x)) = idForInfo (info e)).
Proof.
  intros Hwf Hin x Hx. split.
  - intros Hp. destruct x as [px ex]. simpl in Hp. subst.
    pose proof (In_lookupElem p _ e (wf_nodup a Hwf) Hin).
    pose proof (In_lookupElem p _ ex (wf_nodup a Hwf) Hx). simpl. congruence.
  - intros Hid. assert (x = (p, e)) by (apply (In_same_id a); auto). subst. reflexivity.
Qed.

(** Replacing the value of one element (in place or moved to the back). *)
Lemma replace_wf a a' p e0 e :
  store_wf a -> In (p, e0) (entryList a) ->
  entities a' = entities a -> nextElem a' = nextElem a ->
  (latestRevno a <= latestRevno a')%Z ->
  (forall x, In x (entryList a') <-> (In x (entryList a) /\ fst x <> p) \/ x = (p, e)) ->
  List.NoDup (List.map fst (entryList a')) -> revnoSorted (entryList a') ->
  idForInfo (info e) = idForInfo (info e0) ->
  (1 <= creationRevno e <= revno e /\ revno e <= latestRevno a')%Z ->
  store_wf a' /\
  forall id, entryOf a' id =
    if decide (id = idForInfo (info e0)) then Some e else entryOf a id.
Proof.
  intros Hwf Hin Hent Hnext Hlat Hl' Hnd Hs Hid He.
  assert (Hwf' : store_wf a').
  { constructor; auto.
    - intros x Hx. rewrite Hnext. apply Hl' in Hx as [[Hx _]| ->].
      + apply (wf_fresh a Hwf); auto.
      + apply (wf_fresh a Hwf _ Hin).
    - intros x Hx. rewrite Hent. apply Hl' in Hx as [[Hx _]| ->].
      + apply (wf_keyed a Hwf _ Hx).
      + simpl. rewrite Hid. apply (wf_keyed a Hwf _ Hin).
    - intros id q Hq. rewrite Hent in Hq.
      destruct (wf_mapped a Hwf id q Hq) as [e1 [Hin1 Hid1]].
      destruct (Nat.eq_dec q p) as [->|Hne].
      + exists e. split; [apply Hl'; auto|].
        assert (e1 = e0).
        { pose proof (In_lookupElem p _ e1 (wf_nodup a Hwf) Hin1).
          pose proof (In_lookupElem p _ e0 (wf_nodup a Hwf) Hin). congruence. }
        subst. congruence.
      + exists e1. split; [apply Hl'; left; auto|auto].
    - intros x Hx. apply Hl' in Hx as [[Hx _]| ->].
      + pose proof (wf_revnos a Hwf _ Hx). lia.
      + simpl. exact He.
    - pose proof (wf_latest a Hwf). lia. }
  split; [exact Hwf'|]. intros id. apply entryOf_eq; [exact Hwf'|]. intros e1.
  destruct (decide (id = idForInfo (info e0))) as [->|Hne].
  - split.
    + intros [q [Hq Hid1]]. apply Hl' in Hq as [[Hq Hne]|Hq].
      * exfalso. apply Hne. apply (wf_elem_id a p e0 Hwf Hin (q, e1) Hq). exact Hid1.
      * injection Hq as -> ->. reflexivity.
    + intros [= <-]. exists p. split; [apply Hl'; auto|exact Hid].
  - rewrite (entryOf_iff a id e1 Hwf). split.
    + intros [q [Hq Hid1]]. apply Hl' in Hq as [[Hq _]|Hq].
      * exists q. auto.
      * injection Hq as -> ->. congruence.
    + intros [q [Hq Hid1]]. exists q. split; [|exact Hid1]. apply Hl'. left. split; [exact Hq|].
      simpl. intros ->. apply Hne. rewrite <- Hid1.
      apply (wf_elem_id a p e0 Hwf Hin (p, e1) Hq). reflexivity.
Qed.

Lemma updateElem_In_iff l p e e0 :
  In (p, e0) l ->
  forall x, In x (updateElem p e l) <-> (In x l /\ fst x <> p) \/ x = (p, e).
Proof.
  intros Hin x. rewrite In_updateElem. split; [intros [H|[H _]]; auto|].
  intros [H| ->]; auto. right. split; [reflexivity|]. apply (List.in_map fst) in Hin. exact Hin.
Qed.

Lemma moveToBack_In_iff l p e x :
  In x (moveToBack p e l) <-> (In x l /\ fst x <> p) \/ x = (p, e).
Proof.
  unfold moveToBack. rewrite in_app_iff, In_removeElem. simpl. intuition.
Qed.

Lemma moveToBack_nodup l p e :
  List.NoDup (List.map fst l) -> List.NoDup (List.map fst (moveToBack p e l)).
Proof.
  intros Hnd. unfold moveToBack. rewrite map_app. simpl.
  apply List.NoDup_app; [apply NoDup_map_filter; exact Hnd| |].
  - constructor; [simpl; tauto|constructor].
  - intros q Hq. apply List.in_map_iff in Hq as [x [<- Hx]]. apply In_removeElem in Hx as [_ Hx].
    simpl. intros [H|[]]. congruence.
Qed.

(** Setting the value of an entry in place, keeping its id and revnos. *)
Lemma setValue_wf a p e0 e :
  store_wf a -> In (p, e0) (entryList a) ->
  idForInfo (info e) = idForInfo (info e0) -> revno e = revno e0 ->
  creationRevno e = creationRevno e0 ->
  let a' := setList a (updateElem p e (entryList a)) in
  store_wf a' /\
  forall id, entryOf a' id = if decide (id = idForInfo (info e0)) then Some e else entryOf a id.
Proof.
  intros Hwf Hin Hid Hr Hc a'. apply (replace_wf a a' p e0 e); auto; simpl.
  - lia.
  - apply updateElem_In_iff with e0; exact Hin.
  - rewrite map_fst_updateElem. apply wf_nodup; exact Hwf.
  - apply revnoSorted_updateElem; [|apply wf_sorted; exact Hwf].
    intros x Hx Hp. destruct x as [q ex]. simpl in *. subst.
    pose proof (In_lookupElem p _ e0 (wf_nodup a Hwf) Hin).
    pose proof (In_lookupElem p _ ex (wf_nodup a Hwf) Hx). congruence.
  - pose proof (wf_revnos a Hwf _ Hin). simpl in *. lia.
Qed.

(** Moving an entry to the back with the next revno. *)
Lemma moveBack_wf a p e0 e :
  store_wf a -> In (p, e0) (entryList a) ->
  idForInfo (info e) = idForInfo (info e0) -> revno e = (latestRevno a + 1)%Z ->
  creationRevno e = creationRevno e0 ->
  let a' := mkStore (latestRevno a + 1) (entities a) (moveToBack p e (entryList a)) (nextElem a) in
  store_wf a' /\
  forall id, entryOf a' id = if decide (id = idForInfo (info e0)) then Some e else entryOf a id.
Proof.
  intros Hwf Hin Hid Hr Hc a'. apply (replace_wf a a' p e0 e); auto; simpl.
  - lia.
  - intros x. apply moveToBack_In_iff.
  - apply moveToBack_nodup, wf_nodup; exact Hwf.
  - unfold moveToBack. apply revnoSorted_snoc.
    + apply revnoSorted_filter, wf_sorted; exact Hwf.
    + intros x Hx. apply In_removeElem in Hx as [Hx _].
      pose proof (wf_revnos a Hwf _ Hx). simpl. lia.
  - pose proof (wf_revnos a Hwf _ Hin). simpl in *. lia.
Qed.

Lemma setLatest_wf a r :
  store_wf a -> (latestRevno a <= r)%Z -> store_wf (setLatest a r) /\
  forall id, entryOf (setLatest a r) id = entryOf a id.
Proof.
  intros Hwf Hr. split; [|reflexivity].
  destruct Hwf; constructor; simpl; auto.
  - intros x Hx. specialize (wf_revnos0 x Hx). lia.
  - lia.
Qed.

Lemma add_wf a id inf :
  store_wf a -> entryOf a id = None -> idForInfo inf = id ->
  store_wf (add a id inf) /\
  forall id', entryOf (add a id inf) id' =
    if decide (id' = id) then Some (mkEntry (latestRevno a + 1) (latestRevno a + 1) false 0 inf)
    else entryOf a id'.
Proof.
  intros Hwf Hnone Hid. apply entryOf_None_entities in Hnone; [|exact Hwf].
  set (e := mkEntry (latestRevno a + 1) (latestRevno a + 1) false 0 inf).
  assert (Hl : forall x, In x (entryList (add a id inf)) <-> In x (entryList a) \/ x = (nextElem a, e)).
  { intros x. simpl. rewrite in_app_iff. simpl. intuition. }
  assert (Hnx : forall x, In x (entryList a) -> idForInfo (info (snd x)) <> id).
  { intros x Hx Heq. pose proof (wf_keyed a Hwf _ Hx). congruence. }
  assert (Hwf' : store_wf (add a id inf)).
  { constructor.
    - simpl. rewrite map_app. simpl. apply List.NoDup_app; [apply wf_nodup; exact Hwf| |].
      + constructor; [simpl; tauto|constructor].
      + intros q Hq. apply List.in_map_iff in Hq as [x [<- Hx]].
        pose proof (wf_fresh a Hwf _ Hx). simpl. intros [Hq|[]]. lia.
    - intros x Hx. apply Hl in Hx as [Hx| ->]; simpl.
      + pose proof (wf_fresh a Hwf _ Hx). lia.
      + lia.
    - intros x Hx. apply Hl in Hx as [Hx| ->]; simpl.
      + rewrite lookup_insert_ne; [apply (wf_keyed a Hwf _ Hx)|].
        intros Heq. apply (Hnx x Hx). auto.
      + rewrite Hid. apply lookup_insert_eq.
    - intros id' q Hq. simpl in Hq. destruct (decide (id = id')) as [<-|Hne].
      + rewrite lookup_insert_eq in Hq. injection Hq as <-. exists e.
        split; [apply Hl; auto|exact Hid].
      + rewrite lookup_insert_ne in Hq by exact Hne.
        destruct (wf_mapped a Hwf id' q Hq) as [e1 [Hin1 Hid1]]. exists e1.
        split; [apply Hl; auto|exact Hid1].
    - unfold revnoSorted. simpl. apply revnoSorted_snoc; [apply wf_sorted; exact Hwf|].
      intros x Hx. pose proof (wf_revnos a Hwf _ Hx). simpl. lia.
    - intros x Hx. apply Hl in Hx as [Hx| ->]; simpl.
      + pose proof (wf_revnos a Hwf _ Hx). lia.
      + pose proof (wf_latest a Hwf). lia.
    - simpl. pose proof (wf_latest a Hwf). lia. }
  split; [exact Hwf'|]. intros id'. apply entryOf_eq; [exact Hwf'|]. intros e1.
  destruct (decide (id' = id)) as [->|Hne]; split.
  - intros [q [Hq Hid1]]. apply Hl in Hq as [Hq|Hq].
    + exfalso. apply (Hnx _ Hq). exact Hid1.
    + injection Hq as _ ->. reflexivity.
  - intros [= <-]. exists (nextElem a). split; [apply Hl; auto|exact Hid].
  - intros [q [Hq Hid1]]. apply Hl in Hq as [Hq|Hq].
    + apply (entryOf_iff a id' e1 Hwf). eauto.
    + injection Hq as _ ->. subst e. simpl in Hid1. congruence.
  - intros He1. apply (entryOf_iff a id' e1 Hwf) in He1 as [q [Hq Hid1]]. exists q.
    split; [apply Hl; auto|exact Hid1].
Qed.

Lemma delete_wf a id :
  store_wf a ->
  store_wf (delete a id) /\ latestRevno (delete a id) = latestRevno a /\
  forall id', entryOf (delete a id) id' = if decide (id' = id) then None else entryOf a id'.
Proof.
  intros Hwf. unfold delete. destruct (entities a !! id) as [p|] eqn:Hp.
  2:{ split; [exact Hwf|]. split; [reflexivity|]. intros id'.
      destruct (decide (id' = id)) as [->|]; [|reflexivity].
      unfold entryOf. rewrite Hp. reflexivity. }
  destruct (wf_mapped a Hwf id p Hp) as [e0 [Hin0 Hid0]].
  set (a' := mkStore (latestRevno a) (base.delete id (entities a)) (removeElem p (entryList a)) (nextElem a)).
  assert (Hl : forall x, In x (entryList a') <-> In x (entryList a) /\ idForInfo (info (snd x)) <> id).
  { intros x. simpl. rewrite In_removeElem. split; intros [Hx Hne]; split; auto.
    - intros Heq. apply Hne. apply (wf_elem_id a p e0 Hwf Hin0 x Hx). congruence.
    - intros Heq. apply Hne. rewrite <- Hid0. apply (wf_elem_id a p e0 Hwf Hin0 x Hx). exact Heq. }
  assert (Hwf' : store_wf a').
  { constructor.
    - simpl. apply NoDup_map_filter, wf_nodup; exact Hwf.
    - intros x Hx. apply Hl in Hx as [Hx _]. apply (wf_fresh a Hwf _ Hx).
    - intros x Hx. apply Hl in Hx as [Hx Hne]. simpl.
      rewrite lookup_delete_ne by (intros Heq; apply Hne; auto). apply (wf_keyed a Hwf _ Hx).
    - intros id' q Hq. simpl in Hq. destruct (decide (id = id')) as [<-|Hne].
      + rewrite lookup_delete_eq in Hq. discriminate.
      + rewrite lookup_delete_ne in Hq by exact Hne.
        destruct (wf_mapped a Hwf id' q Hq) as [e1 [Hin1 Hid1]]. exists e1.
        split; [apply Hl; simpl; split; [exact Hin1|congruence]|exact Hid1].
    - simpl. apply revnoSorted_filter, wf_sorted; exact Hwf.
    - intros x Hx. apply Hl in Hx as [Hx _]. apply (wf_revnos a Hwf _ Hx).
    - apply (wf_latest a Hwf). }
  split; [exact Hwf'|]. split; [reflexivity|]. intros id'.
  apply entryOf_eq; [exact Hwf'|]. intros e1.
  destruct (decide (id' = id)) as [->|Hne]; split.
  - intros [q [Hq Hid1]]. apply Hl in Hq as [_ Hq]. simpl in Hq. congruence.
  - discriminate.
  - intros [q [Hq Hid1]]. apply Hl in Hq as [Hq _]. apply (entryOf_iff a id' e1 Hwf). eauto.
  - intros He1. apply (entryOf_iff a id' e1 Hwf) in He1 as [q [Hq Hid1]]. exists q.
    split; [apply Hl; simpl; split; [exact Hq|congruence]|exact Hid1].
Qed.

Lemma entryOf_lookup a id p e :
  entities a !! id = Some p -> lookupElem p (entryList a) = Some e -> entryOf a id = Some e.
Proof. intros Hp Hl. unfold entryOf. rewrite Hp. exact Hl. Qed.

Lemma entryOf_lookup_None a id p :
  entities a !! id = Some p -> lookupElem p (entryList a) = None -> entryOf a id = None.
Proof. intros Hp Hl. unfold entryOf. rewrite Hp. exact Hl. Qed.

Lemma entryOf_absent a id : entities a !! id = None -> entryOf a id = None.
Proof. intros Hp. unfold entryOf. rewrite Hp. reflexivity. Qed.

Lemma lookup_entry_id a id p e :
  store_wf a -> entities a !! id = Some p -> lookupElem p (entryList a) = Some e ->
  In (p, e) (entryList a) /\ idForInfo (info e) = id.
Proof.
  intros Hwf Hp Hl. pose proof (entryOf_lookup a id p e Hp Hl) as He.
  destruct (entryOf_In a id e Hwf He) as [q [Hin [Hid Hq]]].
  split; [|exact Hid]. rewrite Hp in Hq. injection Hq as <-. exact Hin.
Qed.

Lemma incRef_wf a id :
  store_wf a ->
  store_wf (incRef a id) /\ latestRevno (incRef a id) = latestRevno a /\
  forall id', entryOf (incRef a id) id' =
    if decide (id' = id) then option_map (fun e => setRef e (refCount e + 1)) (entryOf a id)
    else entryOf a id'.
Proof.
  intros Hwf. unfold incRef.
  destruct (entities a !! id) as [p|] eqn:Hp.
  2:{ split; [exact Hwf|]. split; [reflexivity|]. intros id'.
      destruct (decide (id' = id)) as [->|]; [|reflexivity]. rewrite entryOf_absent; auto. }
  destruct (lookupElem p (entryList a)) as [e|] eqn:Hl.
  2:{ split; [exact Hwf|]. split; [reflexivity|]. intros id'.
      destruct (decide (id' = id)) as [->|]; [|reflexivity].
      rewrite (entryOf_lookup_None a id p); auto. }
  destruct (lookup_entry_id a id p e Hwf Hp Hl) as [Hin Hid].
  destruct (setValue_wf a p e (setRef e (refCount e + 1)) Hwf Hin) as [Hwf' Hent];
    try reflexivity.
  split; [exact Hwf'|]. split; [reflexivity|]. intros id'. rewrite Hent, Hid.
  rewrite (entryOf_lookup a id p e Hp Hl). reflexivity.
Qed.

Lemma decRef_wf a id :
  store_wf a ->
  store_wf (decRef a id) /\ latestRevno (decRef a id) = latestRevno a /\
  forall id', entryOf (decRef a id) id' =
    if decide (id' = id) then decEntry (entryOf a id) else entryOf a id'.
Proof.
  intros Hwf. unfold decRef.
  destruct (entities a !! id) as [p|] eqn:Hp.
  2:{ split; [exact Hwf|]. split; [reflexivity|]. intros id'.
      destruct (decide (id' = id)) as [->|]; [|reflexivity]. rewrite entryOf_absent; auto. }
  destruct (lookupElem p (entryList a)) as [e|] eqn:Hl.
  2:{ split; [exact Hwf|]. split; [reflexivity|]. intros id'.
      destruct (decide (id' = id)) as [->|]; [|reflexivity].
      rewrite (entryOf_lookup_None a id p); auto. }
  destruct (lookup_entry_id a id p e Hwf Hp Hl) as [Hin Hid].
  destruct (setValue_wf a p e (setRef e (refCount e - 1)) Hwf Hin) as [Hwf' Hent];
    try reflexivity.
  rewrite (entryOf_lookup a id p e Hp Hl). simpl.
  destruct (Z.eqb (refCount e - 1) 0 && removed e) eqn:Hc.
  - destruct (delete_wf _ id Hwf') as [Hwf'' [Hlat Hd]].
    split; [exact Hwf''|]. split; [exact Hlat|]. intros id'. rewrite Hd.
    destruct (decide (id' = id)) as [->|Hne]; [reflexivity|]. rewrite Hent, Hid.
    destruct (decide (id' = id)); [contradiction|reflexivity].
  - split; [exact Hwf'|]. split; [reflexivity|]. intros id'. rewrite Hent, Hid. reflexivity.
Qed.

Lemma Update_wf a id o :
  store_wf a -> (forall inf, o = Some inf -> idForInfo inf = id) ->
  store_wf (Update a id o) /\
  latestRevno (Update a id o) = updatedLatest (latestRevno a) (entryOf a id) o /\
  forall id', entryOf (Update a id o) id' =
    if decide (id' = id) then updatedEntry (latestRevno a) (entryOf a id) o
    else entryOf a id'.
Proof.
  intros Hwf Ho. unfold Update.
  destruct (entities a !! id) as [p|] eqn:Hp.
  - destruct (lookupElem p (entryList a)) as [e|] eqn:Hl.
    + destruct (lookup_entry_id a id p e Hwf Hp Hl) as [Hin Hid].
      rewrite (entryOf_lookup a id p e Hp Hl).
      destruct o as [inf|].
      * destruct (moveBack_wf a p e (mkEntry (latestRevno a + 1) (creationRevno e) (removed e)
                                   (refCount e) inf) Hwf Hin) as [Hwf' Hent];
          try reflexivity.
        { simpl. rewrite Hid. apply Ho. reflexivity. }
        split; [exact Hwf'|]. split; [reflexivity|]. intros id'. rewrite Hent, Hid. reflexivity.
      * simpl. destruct (removed e) eqn:Hr.
        { split; [exact Hwf|]. split; [reflexivity|]. intros id'.
          destruct (decide (id' = id)) as [->|]; [|reflexivity].
          apply (entryOf_lookup a id p e Hp Hl). }
        destruct (Z.eqb (refCount e) 0) eqn:Hz.
        { destruct (setLatest_wf a (latestRevno a + 1) Hwf) as [Hwf1 He1]; [lia|].
          destruct (delete_wf _ id Hwf1) as [Hwf2 [Hlat Hd]].
          split; [exact Hwf2|]. split; [exact Hlat|]. intros id'. rewrite Hd, He1.
          destruct (decide (id' = id)); reflexivity. }
        destruct (moveBack_wf a p e (mkEntry (latestRevno a + 1) (creationRevno e) true
                                   (refCount e) (info e)) Hwf Hin) as [Hwf' Hent];
          try reflexivity.
        split; [exact Hwf'|]. split; [reflexivity|]. intros id'. rewrite Hent, Hid. reflexivity.
    + rewrite (entryOf_lookup_None a id p Hp Hl).
      exfalso. destruct (wf_mapped a Hwf id p Hp) as [e [Hin _]].
      rewrite (In_lookupElem p _ e (wf_nodup a Hwf) Hin) in Hl. discriminate.
  - rewrite (entryOf_absent a id Hp). destruct o as [inf|].
    + destruct (add_wf a id inf Hwf) as [Hwf' Hent].
      * apply entryOf_absent; exact Hp.
      * apply Ho; reflexivity.
      * split; [exact Hwf'|]. split; [reflexivity|]. intros id'. rewrite Hent. reflexivity.
    + split; [exact Hwf|]. split; [reflexivity|]. intros id'.
      destruct (decide (id' = id)) as [->|]; [|reflexivity]. apply entryOf_absent; exact Hp.
Qed.

Lemma nodupb_sound l : nodupb l = true -> List.NoDup l.
Proof.
  induction l as [|x l IH]; simpl; [constructor|].
  intros H. apply andb_true_iff in H as [H1 H2]. constructor; [|auto].
  intros Hin. apply negb_true_iff in H1.
  assert (List.existsb (Nat.eqb x) l = true) by (apply List.existsb_exists; exists x; split; [exact Hin|apply Nat.eqb_refl]).
  congruence.
Qed.

Lemma sortedb_sound l : sortedb l = true -> revnoSorted l.
Proof.
  unfold revnoSorted. induction l as [|x l IH]; simpl; [constructor|].
  intros H. apply andb_true_iff in H as [H1 H2]. constructor; [auto|].
  apply List.Forall_forall. intros y Hy. rewrite List.forallb_forall in H1.
  apply Z.ltb_lt, H1, Hy.
Qed.

Lemma store_wfb_sound a : store_wfb a = true -> store_wf a.
Proof.
  unfold store_wfb. intros H. repeat rewrite andb_true_iff in H.
  destruct H as [[[[[[H1 H2] H3] H4] H5] H6] H7].
  rewrite List.forallb_forall in H2, H3, H4, H6.
  constructor.
  - apply nodupb_sound, H1.
  - intros x Hx. apply Nat.ltb_lt, H2, Hx.
  - intros x Hx. apply (bool_decide_eq_true _), H3, Hx.
  - intros id p Hp. apply elem_of_map_to_list in Hp.
    apply list_elem_of_In in Hp.
    specialize (H4 _ Hp). apply List.existsb_exists in H4 as [[q e] [Hin He]].
    simpl in He. apply andb_true_iff in He as [Hq He]. apply Nat.eqb_eq in Hq.
    apply bool_decide_eq_true in He. simpl in *. subst. exists e. auto.
  - apply sortedb_sound, H5.
  - intros x Hx. specialize (H6 x Hx). repeat rewrite andb_true_iff in H6.
    destruct H6 as [[Ha Hb] Hc]. apply Z.leb_le in Ha, Hb, Hc. lia.
  - apply Z.leb_le, H7.
Qed.

Lemma StronglySorted_snoc_inv {A} (R : A -> A -> Prop) l y :
  StronglySorted R (l ++ [y]) -> StronglySorted R l /\ forall x, In x l -> R x y.
Proof.
  induction l as [|x l IH]; simpl; intros Hs.
  - split; [constructor|tauto].
  - apply StronglySorted_inv in Hs as [Hs Hf]. destruct (IH Hs) as [Hl Hy].
    rewrite List.Forall_forall in Hf. split.
    + constructor; [exact Hl|]. apply List.Forall_forall. intros z Hz. apply Hf, in_app_iff. auto.
    + intros z [<-|Hz]; [apply Hf, in_app_iff; simpl; auto|auto].
Qed.

(** Walking back from the tail finds exactly the entries with [revno > r]. *)
Lemma suffixAfter_filter r l :
  revnoSorted l ->
  List.rev (suffixAfter r (List.rev l)) = List.filter (fun x => Z.ltb r (revno (snd x))) l.
Proof.
  induction l as [|y l IH] using rev_ind; [reflexivity|].
  intros Hs. apply StronglySorted_snoc_inv in Hs as [Hs Hlt].
  rewrite List.rev_app_distr. simpl. rewrite List.filter_app. simpl.
  destruct (Z.ltb r (revno (snd y))) eqn:Hy.
  - simpl. rewrite IH by exact Hs. reflexivity.
  - simpl. symmetry. rewrite app_nil_r.
    destruct (List.filter (fun x => Z.ltb r (revno (snd x))) l) as [|z zs] eqn:Hf; [exact Hf|].
    exfalso. assert (Hz : In z (List.filter (fun x => Z.ltb r (revno (snd x))) l)) by (rewrite Hf; left; reflexivity).
    apply List.filter_In in Hz as [Hz Hzr]. specialize (Hlt z Hz).
    apply Z.ltb_lt in Hzr. apply Z.ltb_ge in Hy. lia.
Qed.

Lemma filter_filter' {A} (f g : A -> bool) l :
  List.filter f (List.filter g l) = List.filter (fun x => g x && f x) l.
Proof.
  induction l as [|x l IH]; simpl; [reflexivity|].
  destruct (g x) eqn:Hg, (f x) eqn:Hf; simpl; rewrite ?Hg, ?Hf, ?IH; reflexivity.
Qed.

Lemma ChangesSince_filter a r :
  store_wf a ->
  ChangesSince a r =
  List.map (fun x => toDelta (snd x)) (List.filter (fun x => reported r (snd x)) (entryList a)).
Proof.
  intros Hwf. unfold ChangesSince. rewrite suffixAfter_filter by apply (wf_sorted a Hwf).
  f_equal. rewrite filter_filter'. apply List.filter_ext. intros x.
  unfold reported. reflexivity.
Qed.

(* ===================================================================== *)
(** ** Folds touching one entry per element                              *)
(* ===================================================================== *)

Section LocalFold.

Variable g : Store -> element -> Store.
Variable h : entityEntry -> option entityEntry.

Hypothesis g_local : forall a x,
  store_wf a -> entryOf a (idForInfo (info (snd x))) = Some (snd x) ->
  store_wf (g a x) /\ latestRevno (g a x) = latestRevno a /\
  entryOf (g a x) (idForInfo (info (snd x))) = h (snd x) /\
  forall id, id <> idForInfo (info (snd x)) -> entryOf (g a x) id = entryOf a id.



End LocalFold.






(* ===================================================================== *)
(** ** Counting watchers                                                  *)
(* ===================================================================== *)






Lemma cnt_ext wr e e' :
  (forall w r, wr !! w = Some r -> seesb r e = seesb r e') -> cnt wr e = cnt wr e'.
Proof.
  intros H. unfold cnt. f_equal. f_equal. apply List.filter_ext_in.
  intros [w r] Hin. apply list_elem_of_In, elem_of_map_to_list in Hin. apply (H w r Hin).
Qed.

(** [seesb] only looks at the revnos and the removed flag. *)
Lemma seesb_setRef r e k : seesb r (setRef e k) = seesb r e.
Proof. reflexivity. Qed.

Lemma cnt_setRef wr e k : cnt wr (setRef e k) = cnt wr e.
Proof. apply cnt_ext. intros. apply seesb_setRef. Qed.



(* ===================================================================== *)
(** ** Applying deltas                                                    *)
(* ===================================================================== *)




(* ===================================================================== *)
(** ** Deliveries                                                         *)
(* ===================================================================== *)






(* ===================================================================== *)
(** ** Entry-level facts for the manager                                 *)
(* ===================================================================== *)





















Lemma respondOne_cases sm w :
  respondOne sm w = sm \/
  exists q rest, waiting sm !! w = Some (q :: rest) /\
    (watcherRevno sm w < latestRevno (all sm))%Z /\
    respondOne sm w =
      mkManager (seen (all sm) (watcherRevno sm w))
        (<[w := latestRevno (all sm)]> (wrevno sm))
        (match rest with
         | [] => base.delete w (waiting sm)
         | _ => <[w := rest]> (waiting sm)
         end)
        (stoppedW sm)
        (replies sm ++ [(w, q, true, ChangesSince (all sm) (watcherRevno sm w))]).
Proof.
  unfold respondOne. destruct (waiting sm !! w) as [[|q rest]|] eqn:Hw; auto.
  destruct (Z.ltb (watcherRevno sm w) (latestRevno (all sm))) eqn:Hlt; [|auto].
  right. exists q, rest. split; [reflexivity|]. split; [apply Z.ltb_lt; exact Hlt|reflexivity].
Qed.










(* ===================================================================== *)
(** ** What a served watcher receives                                    *)
(* ===================================================================== *)




(* ===================================================================== *)
(** ** The manager invariant is preserved                                *)
(* ===================================================================== *)











Lemma watcherRevno_mk a wr ws st rs w :
  watcherRevno (mkManager a wr ws st rs) w = match wr !! w with Some r => r | None => 0%Z end.
Proof. reflexivity. Qed.







(* ===================================================================== *)
(** ** Deltas for one entity along a watcher's stream                    *)
(* ===================================================================== *)







Section Ghost.

Variable w : nat.
Variable id : InfoId.






End Ghost.

(* ===================================================================== *)
(** ** One watcher's part of a respond pass                              *)
(* ===================================================================== *)

Lemma delete_latest a id : latestRevno (delete a id) = latestRevno a.
Proof. unfold delete. destruct (entities a !! id); reflexivity. Qed.

Lemma decRef_latest a id : latestRevno (decRef a id) = latestRevno a.
Proof.
  unfold decRef. destruct (entities a !! id) as [p|]; [|reflexivity].
  destruct (lookupElem p (entryList a)) as [e|]; [|reflexivity].
  destruct (_ && _); [rewrite delete_latest|]; reflexivity.
Qed.

Lemma incRef_latest a id : latestRevno (incRef a id) = latestRevno a.
Proof.
  unfold incRef. destruct (entities a !! id) as [p|]; [|reflexivity].
  destruct (lookupElem p (entryList a)); reflexivity.
Qed.

Lemma seenStep_latest r a x : latestRevno (seenStep r a x) = latestRevno a.
Proof.
  unfold seenStep.
  destruct (Z.ltb r (revno (snd x))), (Z.ltb r (creationRevno (snd x))), (removed (snd x));
    rewrite ?incRef_latest, ?decRef_latest; reflexivity.
Qed.

Lemma seen_latest a r : latestRevno (seen a r) = latestRevno a.
Proof.
  unfold seen. generalize (entryList a). intros l. revert a.
  induction l as [|x l IH]; simpl; intros a0; [reflexivity|].
  rewrite IH. apply seenStep_latest.
Qed.

Lemma respondOne_other sm w w' :
  w' <> w ->
  waiting (respondOne sm w') !! w = waiting sm !! w /\
  wrevno (respondOne sm w') !! w = wrevno sm !! w /\
  repliesFor w (respondOne sm w') = repliesFor w sm /\
  latestRevno (all (respondOne sm w')) = latestRevno (all sm).
Proof.
  intros Hne. destruct (respondOne_cases sm w') as [-> | [q [rest [Hw [Hlt ->]]]]]; [auto|].
  unfold repliesFor. cbn [waiting wrevno replies all].
  rewrite lookup_insert_ne by exact Hne. rewrite seen_latest, List.filter_app. simpl.
  destruct (Nat.eqb_spec w' w) as [E|_]; [contradiction|]. rewrite app_nil_r.
  split; [|auto]. destruct rest; [apply lookup_delete_ne|apply lookup_insert_ne]; exact Hne.
Qed.

Lemma fold_respondOne_others ws sm w :
  ~ In w ws ->
  waiting (List.fold_left respondOne ws sm) !! w = waiting sm !! w /\
  wrevno (List.fold_left respondOne ws sm) !! w = wrevno sm !! w /\
  repliesFor w (List.fold_left respondOne ws sm) = repliesFor w sm /\
  latestRevno (all (List.fold_left respondOne ws sm)) = latestRevno (all sm).
Proof.
  revert sm. induction ws as [|w' ws IH]; simpl; intros sm Hn; [auto|].
  destruct (IH (respondOne sm w') ltac:(tauto)) as [H1 [H2 [H3 H4]]].
  destruct (respondOne_other sm w w' ltac:(intros ->; tauto)) as [G1 [G2 [G3 G4]]].
  split; [congruence|]. split; [congruence|]. split; congruence.
Qed.

Lemma respondOne_head sm w q qs :
  waiting sm !! w = Some (q :: qs) ->
  respondOne sm w =
    if Z.ltb (watcherRevno sm w) (latestRevno (all sm)) then
      mkManager (seen (all sm) (watcherRevno sm w))
        (<[w := latestRevno (all sm)]> (wrevno sm))
        (match qs with
         | [] => base.delete w (waiting sm)
         | _ => <[w := qs]> (waiting sm)
         end)
        (stoppedW sm)
        (replies sm ++ [(w, q, true, ChangesSince (all sm) (watcherRevno sm w))])
    else sm.
Proof. intros H. unfold respondOne. rewrite H. reflexivity. Qed.

Lemma pending_answered sm w q qs :
  pending (mkManager (seen (all sm) (watcherRevno sm w))
        (<[w := latestRevno (all sm)]> (wrevno sm))
        (match qs with
         | [] => base.delete w (waiting sm)
         | _ => <[w := qs]> (waiting sm)
         end)
        (stoppedW sm)
        (replies sm ++ [(w, q, true, ChangesSince (all sm) (watcherRevno sm w))])) w = qs.
Proof.
  unfold pending. cbn [waiting].
  destruct qs; [rewrite lookup_delete_eq|rewrite lookup_insert_eq]; reflexivity.
Qed.

(** A respond pass visits every watcher with pending requests once. *)
Lemma respond_split sm w qs :
  waiting sm !! w = Some qs ->
  exists ws1 ws2, elements (dom (waiting sm)) = ws1 ++ w :: ws2 /\ ~ In w ws1 /\ ~ In w ws2.
Proof.
  intros Hw.
  assert (Hin : In w (elements (dom (waiting sm)))).
  { apply list_elem_of_In, elem_of_elements, elem_of_dom. rewrite Hw. eexists; reflexivity. }
  apply List.in_split in Hin as [ws1 [ws2 Hs]]. exists ws1, ws2. split; [exact Hs|].
  pose proof (NoDup_elements (dom (waiting sm))) as Hnd. rewrite Hs in Hnd.
  apply NoDup_app in Hnd as [_ [Hd Hnd]]. apply NoDup_cons in Hnd as [Hn2 _].
  split.
  - intros H1. apply (Hd w); [apply list_elem_of_In, H1|left].
  - intros H2. apply Hn2, list_elem_of_In, H2.
Qed.


(* ===================================================================== *)
(** ** ChangesSince                                                       *)
(* ===================================================================== *)

(** C1 (as the code behaves): for every well-formed store and every [r],
    [ChangesSince(r)] is the list of deltas, in list order (ascending
    [revno]), of the entries with [revno > r] except the removed entries
    created after [r], each delta carrying the entry's info and [removed]
    flag; for [r < 0] that is every entry not marked removed, and for
    [r >= latestRevno] it is empty. *)
Theorem ChangesSince_correct a r :
  store_wf a ->
  (exists xs,
      ChangesSince a r = List.map (fun x => mkDelta (removed (snd x)) (info (snd x))) xs /\
      revnoSorted xs /\
      forall x, In x xs <->
        In x (entryList a) /\ (r < revno (snd x))%Z /\
        ~ (removed (snd x) = true /\ (r < creationRevno (snd x))%Z)) /\
  ((r < 0)%Z -> ChangesSince a r =
     List.map (fun x => mkDelta (removed (snd x)) (info (snd x)))
       (List.filter (fun x => negb (removed (snd x))) (entryList a))) /\
  ((latestRevno a <= r)%Z -> ChangesSince a r = []).
Proof.
  intros Hwf. rewrite (ChangesSince_filter a r Hwf). split; [|split].
  - eexists. split; [reflexivity|]. split.
    + apply revnoSorted_filter, wf_sorted, Hwf.
    + intros x. rewrite List.filter_In. unfold reported.
      rewrite andb_true_iff, negb_true_iff, Z.ltb_lt.
      destruct (removed (snd x)); simpl;
        [rewrite Z.ltb_ge|]; intuition (try discriminate; try lia).
  - intros Hr. f_equal. apply List.filter_ext_in. intros x Hx.
    pose proof (wf_revnos a Hwf x Hx). unfold reported.
    assert (H1 : Z.ltb r (revno (snd x)) = true) by (apply Z.ltb_lt; lia).
    assert (H2 : Z.ltb r (creationRevno (snd x)) = true) by (apply Z.ltb_lt; lia).
    rewrite H1, H2. destruct (removed (snd x)); reflexivity.
  - intros Hr. destruct (List.filter (fun x => reported r (snd x)) (entryList a)) as [|x xs] eqn:Hf;
      [reflexivity|].
    exfalso. assert (Hx : In x (List.filter (fun x => reported r (snd x)) (entryList a)))
      by (rewrite Hf; left; reflexivity).
    apply List.filter_In in Hx as [Hx Hrep]. unfold reported in Hrep.
    apply andb_true_iff in Hrep as [Hrep _]. apply Z.ltb_lt in Hrep.
    pose proof (wf_revnos a Hwf x Hx). lia.
Qed.

Lemma ChangesSince_correct_witness :
  store_wf testChangesSinceStore /\
  ((exists xs,
      ChangesSince testChangesSinceStore 0 =
        List.map (fun x => mkDelta (removed (snd x)) (info (snd x))) xs /\
      revnoSorted xs /\
      forall x, In x xs <->
        In x (entryList testChangesSinceStore) /\ (0 < revno (snd x))%Z /\
        ~ (removed (snd x) = true /\ (0 < creationRevno (snd x))%Z)) /\
  ((0 < 0)%Z -> ChangesSince testChangesSinceStore 0 =
     List.map (fun x => mkDelta (removed (snd x)) (info (snd x)))
       (List.filter (fun x => negb (removed (snd x))) (entryList testChangesSinceStore))) /\
  ((latestRevno testChangesSinceStore <= 0)%Z -> ChangesSince testChangesSinceStore 0 = [])).
Proof.
  split.
  - apply store_wfb_sound. vm_compute. reflexivity.
  - apply (ChangesSince_correct testChangesSinceStore 0).
    apply store_wfb_sound. vm_compute. reflexivity.
Defined.

(** C1 counterexample: in the store of TestChangesSince (a well-formed
    store), three entries have [revno > 0] (machines 2 and 1, and the
    tombstone of machine 0) and three have [revno > -1], but
    [ChangesSince(0)] and [ChangesSince(-1)] return only two deltas each:
    the removal of machine 0, created after 0, is left out. *)
Lemma ChangesSince_skips_unseen_removal :
  store_wfb testChangesSinceStore = true /\
  List.length (List.filter (fun x => Z.ltb 0 (revno (snd x))) (entryList testChangesSinceStore)) = 3%nat /\
  List.length (ChangesSince testChangesSinceStore 0) = 2%nat /\
  List.length (entryList testChangesSinceStore) = 3%nat /\
  List.length (ChangesSince testChangesSinceStore (-1)) = 2%nat /\
  ChangesSince testChangesSinceStore 0 =
    [mkDelta false (MachineInfo "2" ""); mkDelta false (MachineInfo "1" "foo")].
Proof. vm_compute. repeat split. Qed.

Lemma StronglySorted_weaken {A} (R S : A -> A -> Prop) l :
  (forall x y, R x y -> S x y) -> StronglySorted R l -> StronglySorted S l.
Proof.
  intros HRS Hs. induction Hs as [|x l Hs IH Hf]; constructor; [exact IH|].
  eapply List.Forall_impl; [|exact Hf]. intros y. apply HRS.
Qed.

Lemma applyUpdates_wf a us :
  store_wf a -> updatesMatch us = true -> store_wf (applyUpdates a us).
Proof.
  revert a. induction us as [|[id o] us IH]; simpl; intros a Hwf Hm; [exact Hwf|].
  apply andb_true_iff in Hm as [Hu Hm]. apply IH; [|exact Hm].
  apply Update_wf; [exact Hwf|]. intros inf ->. simpl in Hu.
  apply bool_decide_eq_true in Hu. exact Hu.
Qed.

(* ===================================================================== *)
(** ** decRef                                                              *)
(* ===================================================================== *)

(** C3: on a well-formed store, [decRef] of the entry [e] for [id]
    decrements its [refCount]; it removes the entry from both the entities
    map and the list exactly when the decremented count is zero and the
    entry is marked removed, and otherwise makes no structural change (same
    map, same list positions, only the count changed); other entries and
    [latestRevno] are untouched.  Moreover neither [Update] nor [incRef]
    ever makes a tombstone disappear, so a tombstone is only deleted by
    such a [decRef]. *)
Theorem decRef_deletes_iff a id e :
  store_wf a -> entryOf a id = Some e ->
  latestRevno (decRef a id) = latestRevno a /\
  (forall id', id' <> id -> entryOf (decRef a id) id' = entryOf a id') /\
  (if Z.eqb (refCount e - 1) 0 && removed e then
     entities (decRef a id) = base.delete id (entities a) /\
     entryOf (decRef a id) id = None /\
     (forall x, In x (entryList (decRef a id)) <->
                In x (entryList a) /\ idForInfo (info (snd x)) <> id)
   else
     entities (decRef a id) = entities a /\
     List.map fst (entryList (decRef a id)) = List.map fst (entryList a) /\
     entryOf (decRef a id) id =
       Some (mkEntry (revno e) (creationRevno e) (removed e) (refCount e - 1) (info e))) /\
  (removed e = true ->
   (forall id' o, (forall inf, o = Some inf -> idForInfo inf = id') ->
      entryOf (Update a id' o) id <> None) /\
   (forall id', entryOf (incRef a id') id <> None)).
Proof.
  intros Hwf He.
  destruct (decRef_wf a id Hwf) as [Hwf' [Hlat Hent]].
  split; [exact Hlat|]. split.
  { intros id' Hne. rewrite Hent. destruct (decide (id' = id)); [contradiction|reflexivity]. }
  split.
  - destruct (entryOf_In a id e Hwf He) as [p [Hin [Hid Hp]]].
    assert (Hl : lookupElem p (entryList a) = Some e)
      by (apply In_lookupElem; [apply wf_nodup, Hwf|exact Hin]).
    pose proof (Hent id) as Hid'. rewrite He in Hid'.
    destruct (decide (id = id)) as [_|]; [|contradiction]. simpl in Hid'.
    unfold decRef in *. rewrite Hp, Hl in *. cbn [refCount removed] in *.
    destruct (Z.eqb (refCount e - 1) 0 && removed e) eqn:Hc.
    + split; [unfold delete; simpl; rewrite Hp; reflexivity|]. split; [exact Hid'|].
      unfold delete. simpl. rewrite Hp. simpl. intros x. rewrite In_removeElem, (updateElem_In_iff _ p _ e Hin x). split.
      * intros [[[Hx Hne]|Hx] Hne']; [|subst; simpl in Hne'; contradiction].
        split; [exact Hx|]. intros Hxid. apply Hne.
        apply (wf_elem_id a p e Hwf Hin x Hx). congruence.
      * intros [Hx Hne]. split; [left; split; [exact Hx|]|].
        -- intros Hxp. apply Hne. rewrite <- Hid. apply (wf_elem_id a p e Hwf Hin x Hx). exact Hxp.
        -- intros Hxp. apply Hne. rewrite <- Hid. apply (wf_elem_id a p e Hwf Hin x Hx). exact Hxp.
    + simpl. split; [reflexivity|]. split; [apply map_fst_updateElem|]. exact Hid'.
  - intros Hr. split.
    + intros id' o Ho. destruct (Update_wf a id' o Hwf Ho) as [_ [_ HU]].
      rewrite HU. destruct (decide (id = id')) as [<-|]; [|rewrite He; discriminate].
      rewrite He. unfold updatedEntry. destruct o; [discriminate|]. rewrite Hr. discriminate.
    + intros id'. destruct (incRef_wf a id' Hwf) as [_ [_ HI]]. rewrite HI.
      destruct (decide (id = id')) as [<-|]; rewrite He; discriminate.
Qed.

Lemma decRef_deletes_iff_witness :
  exists e, store_wf testChangesSinceStore /\ entryOf testChangesSinceStore ("machine", "0") = Some e /\
  (latestRevno (decRef testChangesSinceStore ("machine", "0")) = latestRevno testChangesSinceStore /\
  (forall id', id' <> ("machine", "0") ->
     entryOf (decRef testChangesSinceStore ("machine", "0")) id' = entryOf testChangesSinceStore id') /\
  (if Z.eqb (refCount e - 1) 0 && removed e then
     entities (decRef testChangesSinceStore ("machine", "0")) =
       base.delete ("machine", "0") (entities testChangesSinceStore) /\
     entryOf (decRef testChangesSinceStore ("machine", "0")) ("machine", "0") = None /\
     (forall x, In x (entryList (decRef testChangesSinceStore ("machine", "0"))) <->
                In x (entryList testChangesSinceStore) /\ idForInfo (info (snd x)) <> ("machine", "0"))
   else
     entities (decRef testChangesSinceStore ("machine", "0")) = entities testChangesSinceStore /\
     List.map fst (entryList (decRef testChangesSinceStore ("machine", "0"))) =
       List.map fst (entryList testChangesSinceStore) /\
     entryOf (decRef testChangesSinceStore ("machine", "0")) ("machine", "0") =
       Some (mkEntry (revno e) (creationRevno e) (removed e) (refCount e - 1) (info e))) /\
  (removed e = true ->
   (forall id' o, (forall inf, o = Some inf -> idForInfo inf = id') ->
      entryOf (Update testChangesSinceStore id' o) ("machine", "0") <> None) /\
   (forall id', entryOf (incRef testChangesSinceStore id') ("machine", "0") <> None))).
Proof.
  eexists. split; [apply store_wfb_sound; vm_compute; reflexivity|].
  split; [vm_compute; reflexivity|].
  apply (decRef_deletes_iff testChangesSinceStore ("machine", "0")).
  - apply store_wfb_sound. vm_compute. reflexivity.
  - vm_compute. reflexivity.
Defined.

(* ===================================================================== *)
(** ** Store invariants under Update                                       *)
(* ===================================================================== *)

(** C4 (as the code behaves): after any sequence of [Update(id, ...)] calls
    on a new store, each [Update(id, info)] naming the id of its info, the
    entries from front to back have strictly (so also non-decreasingly)
    increasing revnos, every revno is at most [latestRevno], and the map
    and the list agree: each entry's id maps to its own list element, each
    mapping points to a list element carrying that id, and no element is
    listed twice. *)
Theorem Update_invariants us :
  updatesMatch us = true ->
  let a := applyUpdates NewStore us in
  StronglySorted (fun x y => (revno (snd x) <= revno (snd y))%Z) (entryList a) /\
  StronglySorted (fun x y => (revno (snd x) < revno (snd y))%Z) (entryList a) /\
  (forall x, In x (entryList a) -> (revno (snd x) <= latestRevno a)%Z) /\
  (forall x, In x (entryList a) -> entities a !! idForInfo (info (snd x)) = Some (fst x)) /\
  (forall id p, entities a !! id = Some p ->
     exists e, In (p, e) (entryList a) /\ idForInfo (info e) = id) /\
  List.NoDup (List.map fst (entryList a)).
Proof.
  intros Hm a. pose proof (applyUpdates_wf NewStore us NewStore_wf Hm) as Hwf. fold a in Hwf.
  split; [|split; [apply wf_sorted, Hwf|split; [|split; [apply wf_keyed, Hwf|split]]]].
  - eapply StronglySorted_weaken; [|apply wf_sorted, Hwf]. intros x y Hxy. cbv beta in *. lia.
  - intros x Hx. pose proof (wf_revnos a Hwf x Hx). lia.
  - apply wf_mapped, Hwf.
  - apply wf_nodup, Hwf.
Qed.

Lemma Update_invariants_witness :
  let us := [(idForInfo (MachineInfo "0" ""), Some (MachineInfo "0" ""));
             (idForInfo (MachineInfo "1" ""), Some (MachineInfo "1" ""));
             (("machine", "0"), None)] in
  updatesMatch us = true /\
  let a := applyUpdates NewStore us in
  StronglySorted (fun x y => (revno (snd x) <= revno (snd y))%Z) (entryList a) /\
  StronglySorted (fun x y => (revno (snd x) < revno (snd y))%Z) (entryList a) /\
  (forall x, In x (entryList a) -> (revno (snd x) <= latestRevno a)%Z) /\
  (forall x, In x (entryList a) -> entities a !! idForInfo (info (snd x)) = Some (fst x)) /\
  (forall id p, entities a !! id = Some p ->
     exists e, In (p, e) (entryList a) /\ idForInfo (info e) = id) /\
  List.NoDup (List.map fst (entryList a)).
Proof.
  intros us. split; [vm_compute; reflexivity|].
  apply (Update_invariants us). vm_compute. reflexivity.
Defined.

(** C4 counterexample (the test "mark removed on entry with zero ref
    count"): adding machine 0 and removing it leaves the store empty with
    [latestRevno = 2], not 0; adding machines 0 and 1 and removing machine
    1 leaves one entry with revno 1 while [latestRevno = 3]. *)
Lemma Update_latestRevno_ahead_of_back :
  let us1 := [(idForInfo (MachineInfo "0" ""), Some (MachineInfo "0" ""));
              (("machine", "0"), None)] in
  let us2 := [(idForInfo (MachineInfo "0" ""), Some (MachineInfo "0" ""));
              (idForInfo (MachineInfo "1" ""), Some (MachineInfo "1" ""));
              (("machine", "1"), None)] in
  updatesMatch us1 = true /\ entryList (applyUpdates NewStore us1) = [] /\
  latestRevno (applyUpdates NewStore us1) = 2%Z /\
  updatesMatch us2 = true /\
  List.map (fun x => revno (snd x)) (entryList (applyUpdates NewStore us2)) = [1%Z] /\
  latestRevno (applyUpdates NewStore us2) = 3%Z.
Proof. vm_compute. repeat split. Qed.

(* ===================================================================== *)
(** ** Update(id, nil) of an absent id                                     *)
(* ===================================================================== *)

(** C7 (as the code behaves): [Update(id, nil)] for an id the store does
    not hold leaves the store unchanged: no entry in the list or the map,
    and [latestRevno] not bumped (so it stays 0 on an empty store). *)
Theorem Update_remove_absent a id :
  entities a !! id = None -> Update a id None = a.
Proof. intros Hp. unfold Update. rewrite Hp. reflexivity. Qed.

Lemma Update_remove_absent_witness :
  entities NewStore !! ("machine", "0") = None /\ Update NewStore ("machine", "0") None = NewStore.
Proof.
  split; [vm_compute; reflexivity|].
  apply Update_remove_absent. vm_compute. reflexivity.
Defined.

(** C7 counterexample (the test "mark removed on nonexistent entry", which
    expects revno 0 and no contents): [Update(id, nil)] on the empty store
    leaves [latestRevno = 0], not 1. *)
Lemma Update_remove_absent_no_bump :
  latestRevno (Update NewStore ("machine", "0") None) = 0%Z /\
  entryList (Update NewStore ("machine", "0") None) = [] /\
  entities (Update NewStore ("machine", "0") None) = ∅.
Proof. vm_compute. repeat split. Qed.

(* ===================================================================== *)
(** ** What a watcher is told about removals                             *)
(* ===================================================================== *)




(* ===================================================================== *)
(** ** Pending requests are answered newest first                        *)
(* ===================================================================== *)

(** C5: a watcher's pending requests are kept newest first ([Next()]
    prepends); the step of [respond()] for a watcher whose revno is below
    [latestRevno] replies true to the newest pending request with
    [ChangesSince(w.revno)], sets the watcher's revno to [latestRevno] and
    leaves the older requests pending; a watcher whose revno has reached
    [latestRevno] is left as it is.  In a whole [respond()] pass the
    watcher gets exactly that one reply, or none. *)
Theorem respond_newest_first sm w q qs :
  waiting sm !! w = Some (q :: qs) ->
  (forall q', w ∉ stoppedW sm -> waiting (handleNext sm w q') !! w = Some (q' :: q :: qs)) /\
  ((watcherRevno sm w < latestRevno (all sm))%Z ->
     replies (respondOne sm w) =
       replies sm ++ [(w, q, true, ChangesSince (all sm) (watcherRevno sm w))] /\
     watcherRevno (respondOne sm w) w = latestRevno (all sm) /\
     pending (respondOne sm w) w = qs) /\
  ((latestRevno (all sm) <= watcherRevno sm w)%Z -> respondOne sm w = sm) /\
  (exists ch,
     repliesFor w (respond sm) =
       repliesFor w sm ++
         (if Z.ltb (watcherRevno sm w) (latestRevno (all sm)) then [(w, q, true, ch)] else []) /\
     pending (respond sm) w =
       (if Z.ltb (watcherRevno sm w) (latestRevno (all sm)) then qs else q :: qs) /\
     watcherRevno (respond sm) w =
       (if Z.ltb (watcherRevno sm w) (latestRevno (all sm))
        then latestRevno (all sm) else watcherRevno sm w)).
Proof.
  intros Hw. split; [|split; [|split]].
  - intros q' Hns. unfold handleNext. destruct (decide (w ∈ stoppedW sm)); [contradiction|].
    cbn [waiting]. rewrite lookup_insert_eq. unfold pending. rewrite Hw. reflexivity.
  - intros Hlt. rewrite (respondOne_head sm w q qs Hw).
    destruct (Z.ltb_spec (watcherRevno sm w) (latestRevno (all sm))); [|lia].
    split; [reflexivity|]. split; [|apply pending_answered].
    rewrite watcherRevno_mk, lookup_insert_eq. reflexivity.
  - intros Hge. rewrite (respondOne_head sm w q qs Hw).
    destruct (Z.ltb_spec (watcherRevno sm w) (latestRevno (all sm))); [lia|reflexivity].
  - destruct (respond_split sm w _ Hw) as [ws1 [ws2 [Hs [H1 H2]]]].
    set (smA := List.fold_left respondOne ws1 sm).
    assert (Hresp : respond sm = List.fold_left respondOne ws2 (respondOne smA w))
      by (unfold respond; rewrite Hs, List.fold_left_app; reflexivity).
    destruct (fold_respondOne_others ws1 sm w H1) as [A1 [A2 [A3 A4]]]. fold smA in A1, A2, A3, A4.
    destruct (fold_respondOne_others ws2 (respondOne smA w) w H2) as [B1 [B2 [B3 _]]].
    rewrite <- Hresp in B1, B2, B3.
    assert (Bp : pending (respond sm) w = pending (respondOne smA w) w)
      by (unfold pending; rewrite B1; reflexivity).
    assert (Br : watcherRevno (respond sm) w = watcherRevno (respondOne smA w) w)
      by (unfold watcherRevno; rewrite B2; reflexivity).
    assert (Ar : watcherRevno smA w = watcherRevno sm w)
      by (unfold watcherRevno; rewrite A2; reflexivity).
    rewrite B3, Bp, Br. rewrite (respondOne_head smA w q qs) by congruence.
    rewrite Ar, A4.
    destruct (Z.ltb_spec (watcherRevno sm w) (latestRevno (all sm))).
    + exists (ChangesSince (all smA) (watcherRevno sm w)).
      rewrite <- Ar, <- A4, pending_answered, watcherRevno_mk, lookup_insert_eq.
      split; [|split; reflexivity].
      unfold repliesFor in *. cbn [replies]. rewrite List.filter_app, A3. simpl.
      rewrite Nat.eqb_refl. reflexivity.
    + exists []. rewrite app_nil_r. split; [exact A3|]. split; [|exact Ar].
      unfold pending. rewrite A1, Hw. reflexivity.
Qed.

Lemma respond_newest_first_witness :
  waiting (run traceMultiple) !! 1 = Some [1; 0] /\
  replies (respondOne (run traceMultiple) 1) =
    [(1, 1, true, [mkDelta false m0])] /\
  pending (respondOne (run traceMultiple) 1) 1 = [0].
Proof.
  assert (Hw : waiting (run traceMultiple) !! 1 = Some [1; 0]) by (vm_compute; reflexivity).
  split; [exact Hw|].
  destruct (respond_newest_first (run traceMultiple) 1 1 [0] Hw) as [_ [Hr _]].
  destruct (Hr ltac:(vm_compute; reflexivity)) as [H1 [_ H3]].
  split; [rewrite H1; vm_compute; reflexivity|exact H3].
Defined.

(* ===================================================================== *)
(** ** Stopping the manager                                              *)
(* ===================================================================== *)

Lemma runAll_dead rs res : dead rs = true -> runAll rs res = rs.
Proof.
  unfold runAll. revert rs. induction res as [|re res IH]; simpl; intros rs Hd; [reflexivity|].
  unfold runStep at 2. rewrite Hd. apply IH, Hd.
Qed.

Lemma find_app {A} (f : A -> bool) l1 l2 :
  List.find f (l1 ++ l2) = match List.find f l1 with Some x => Some x | None => List.find f l2 end.
Proof. induction l1 as [|x l1 IH]; simpl; [reflexivity|]. destruct (f x); [reflexivity|exact IH]. Qed.

Lemma finish_replies_false sm x :
  In x (List.concat (List.map (fun wq => List.map (fun q => (fst wq, q, false, @nil Delta)) (snd wq))
                       (map_to_list (waiting sm)))) ->
  snd (fst x) = false.
Proof.
  intros Hx. apply List.in_concat in Hx as [l [Hl Hx]]. apply List.in_map_iff in Hl as [wq [<- _]].
  apply List.in_map_iff in Hx as [q [<- _]]. reflexivity.
Qed.

(** C6: once the loop exits, on [Stop()] ([e = None]) or on a backing error
    ([e = Some msg]), every pending request is replied false and nothing is
    left waiting; whatever happens next, every [Next()] request that had not
    already been answered (pending, or issued later) returns the error:
    [ErrWatcherStopped] on a plain stop, the backing's error otherwise; and
    the manager's [Stop()] returns [e]. *)
Theorem stopped_manager_errors rs e res :
  dead rs = false ->
  let rs' := runAll (kill rs e) res in
  (forall w q, In q (pending (mgr rs) w) -> In (w, q, false, []) (replies (mgr rs'))) /\
  waiting (mgr rs') = ∅ /\
  (forall w q, replyTo w q (replies (mgr rs)) = None -> nextOutcome rs' w q = NextError (errText e)) /\
  snd (managerStop rs') = e.
Proof.
  intros Hd rs'. unfold rs'. rewrite runAll_dead by reflexivity.
  split; [|split; [reflexivity|split]].
  - intros w q Hq. cbn [kill mgr finish replies]. apply in_app_iff. right.
    unfold pending in Hq. destruct (waiting (mgr rs) !! w) as [qs|] eqn:Hw; [|contradiction].
    apply List.in_concat. exists (List.map (fun q => (w, q, false, @nil Delta)) qs). split.
    + apply (List.in_map (fun wq => List.map (fun q => (fst wq, q, false, @nil Delta)) (snd wq))
               _ (w, qs)).
      apply list_elem_of_In, elem_of_map_to_list, Hw.
    + apply (List.in_map (fun q => (w, q, false, @nil Delta))). exact Hq.
  - intros w q Hn. unfold nextOutcome, replyTo in *. cbn [kill mgr finish replies runErr dead].
    rewrite find_app, Hn.
    match goal with |- context [List.find ?f (List.concat ?l)] =>
      destruct (List.find f (List.concat l)) as [[[[w' q'] b] ch]|] eqn:Hf; [|reflexivity] end.
    apply List.find_some in Hf as [Hin _].
    pose proof (finish_replies_false (mgr rs) _ Hin) as Hb. simpl in Hb. subst b. reflexivity.
  - reflexivity.
Qed.

Lemma stopped_manager_errors_witness :
  dead newRunner = false /\
  nextOutcome (runAll (kill newRunner None) [REv (EvNext 0 0)]) 0 0 = NextError "state watcher was stopped" /\
  snd (managerStop (runAll (kill newRunner None) [REv (EvNext 0 0)])) = None.
Proof.
  split; [reflexivity|].
  destruct (stopped_manager_errors newRunner None [REv (EvNext 0 0)] eq_refl) as [_ [_ [H3 H4]]].
  split; [apply H3; reflexivity|exact H4].
Defined.

(** TestWatcherStopBecauseStoreManagerError: watcher 0 has seen machine 0 and
    is waiting on request 1 when the backing fails; the request gets the
    backing's error, and so does [Stop()]. *)
Lemma backing_error_reaches_next :
  runAll newRunner traceBackingError = kill (runAll newRunner (List.removelast traceBackingError)) (Some "some error") /\
  nextOutcome (runAll newRunner traceBackingError) 0 0 = NextDeltas [mkDelta false m0] /\
  nextOutcome (runAll newRunner traceBackingError) 0 1 = NextError "some error" /\
  snd (managerStop (runAll newRunner traceBackingError)) = Some "some error".
Proof. vm_compute. repeat split; reflexivity. Qed.

End Multiwatcher.

(* ===================================================================== *)
(** ** Opening and initializing the state (src/state/open.go)            *)
(* ===================================================================== *)

Module OpenFacts.

Import StateOpen.

Ltac zk_run :=
  repeat (cbn [logCall setNodes nodes calls failing sessionOk watchEvent fst snd] in *;
    match goal with
    | |- context [failing ?w ?c] => destruct (failing w c) eqn:?
    | |- context [decide (?p ∈ ?s)] => destruct (decide (p ∈ s))
    | |- context [bool_decide (?p ∈ ?s)] => destruct (bool_decide_reflect (p ∈ s))
    | |- context [if sessionOk ?w then _ else _] => destruct (sessionOk w) eqn:?
    end).

(** C9: [Initialize] creates nodes only through [initialize]: its [Create]
    calls are a prefix of /charms, /services, /machines, /units,
    /relations, /initialized, so /initialized comes last and only after
    the five skeleton nodes were created.  When it succeeds, either the
    sentinel was there and nothing was created, or exactly those six nodes
    were created, in that order.  When the connection is up and the sentinel
    exists, it succeeds after dialling and one [Exists] call, with no node
    created. *)
Theorem Initialize_skeleton info w :
  match Initialize info w with
  | (w', r) =>
      (exists new, calls w' = calls w ++ new /\
         createdPaths new = firstn (length (createdPaths new)) (skeleton ++ ["/initialized"]) /\
         ((exists st, r = Ok st) ->
            ("/initialized" ∈ nodes w /\ createdPaths new = [] /\ nodes w' = nodes w) \/
            (("/initialized" ∉ nodes w) /\ createdPaths new = skeleton ++ ["/initialized"] /\
             nodes w' = list_to_set (skeleton ++ ["/initialized"]) ∪ nodes w))) /\
      (Addrs info <> [] -> failing w (ZkDial (join "," (Addrs info))) = None ->
       sessionOk w = true -> failing w (ZkExists "/initialized") = None ->
       "/initialized" ∈ nodes w ->
       r = Ok tt /\ calls w' = calls w ++ [ZkDial (join "," (Addrs info)); ZkExists "/initialized"] /\
       nodes w' = nodes w)
  end.
Proof.
  unfold Initialize, initialize, initialized, open, bind, Dial, Exists, Create, Close, request, ret, fail.
  destruct (Addrs info) as [|a l] eqn:Ha.
  - split; [exists []; split; [rewrite app_nil_r; reflexivity|]; split; [reflexivity|]; intros [st Hst]; discriminate|].
    intros Hne. contradiction.
  - set (s := join "," (a :: l)). zk_run; cbn [fst snd calls nodes logCall setNodes failing sessionOk watchEvent] in *;
    (split;
     [ eexists; split; [rewrite <- ?app_assoc; reflexivity|]; split; [reflexivity|];
       intros [st Hst]; first
         [ discriminate
         | left; split; [assumption|split; reflexivity]
         | right; split; [assumption|]; split; [reflexivity|]; unfold skeleton; simpl; set_solver ]
     | intros; first
         [ discriminate | congruence | tauto
         | split; [reflexivity|split; [rewrite <- ?app_assoc; reflexivity|reflexivity]] ] ]).
Qed.

Lemma Initialize_skeleton_witness :
  snd (Initialize sampleInfo initializedWorld) = Ok tt /\
  calls (fst (Initialize sampleInfo initializedWorld)) =
    [ZkDial "localhost:2181"; ZkExists "/initialized"] /\
  createdPaths (calls (fst (Initialize sampleInfo freshWorld))) = skeleton ++ ["/initialized"].
Proof.
  pose proof (Initialize_skeleton sampleInfo initializedWorld) as H.
  destruct (Initialize sampleInfo initializedWorld) as [w' r].
  destruct H as [_ H2].
  destruct (H2 ltac:(discriminate) eq_refl eq_refl eq_refl
              ltac:(apply (bool_decide_eq_true _); vm_compute; reflexivity)) as [-> [Hc _]].
  split; [reflexivity|]. split; [exact Hc|vm_compute; reflexivity].
Defined.

(** C10: with no address, [open], [Open] and [Initialize] fail with
    "no zookeeper addresses" and leave the ensemble untouched: no call is
    made, in particular no [Dial]. *)
Theorem no_zookeeper_addresses info w :
  Addrs info = [] ->
  open info w = (w, Err "no zookeeper addresses") /\
  Open info w = (w, Err "no zookeeper addresses") /\
  Initialize info w = (w, Err "no zookeeper addresses").
Proof.
  intros H. unfold Open, Initialize, bind, open. rewrite H. split; [|split]; reflexivity.
Qed.

Lemma no_zookeeper_addresses_witness :
  Addrs (mkInfo []) = [] /\
  Initialize (mkInfo []) freshWorld = (freshWorld, Err "no zookeeper addresses").
Proof.
  split; [reflexivity|]. apply (no_zookeeper_addresses (mkInfo []) freshWorld). reflexivity.
Defined.

End OpenFacts.

(* ===================================================================== *)
(** ** Constraints: parsing and rendering (src/state/constraints.go)     *)
(* ===================================================================== *)

Module ConstraintsFacts.

Import StateConstraints.

Lemma streqb_true a b : streqb a b = true <-> a = b.
Proof.
  revert b; induction a as [|x a IH]; intros [|y b]; cbn; try (split; congruence).
  rewrite andb_true_iff, IH, Ascii.eqb_eq. split; [intros [-> ->]; reflexivity|].
  intros H; injection H as -> ->; tauto.
Qed.

Lemma streqb_refl a : streqb a a = true.
Proof. apply streqb_true; reflexivity. Qed.

Lemma parseDigits_uintDigits d : parseDigits (uintDigits d) = Some d.
Proof. induction d; cbn [uintDigits parseDigits]; try rewrite IHd; reflexivity. Qed.


Lemma to_uint_not_nil n : n <> 0%N -> N.to_uint n <> Decimal.Nil.
Proof.
  intros Hn He. apply Hn. rewrite <- (DecimalN.Unsigned.of_to n), He. reflexivity.
Qed.



(** ** Every parsed value satisfies [consOk] *)

Section Admissible.
Context {F : Float64}.






End Admissible.

(** ** Splitting the rendered string gives back its tokens *)












(** ** Parsing the rendered tokens *)

Section Roundtrip.
Context {F : Float64}.

Lemma setRaws_app c l1 l2 :
  setRaws c (l1 ++ l2) = match setRaws c l1 with Ok c' => setRaws c' l2 | Err e => Err e end.
Proof.
  revert c; induction l1 as [|raw rest IH]; intros c; [reflexivity|].
  cbn [app setRaws]. destruct raw; [apply IH|].
  destruct (setRaw c _); [apply IH|reflexivity].
Qed.



(** ** The names rendered are the names parsed *)









End Roundtrip.

Section Claim.
Context {F : Float64}.


End Claim.




End ConstraintsFacts.

(* ===================================================================== *)
(** ** Further properties of Open and Initialize (src/state/open.go)     *)
(* ===================================================================== *)

Module OpenExtra.

Import StateOpen.

Ltac zk_case :=
  repeat (cbn [logCall setNodes nodes calls failing sessionOk watchEvent fst snd] in *;
    match goal with
    | |- context [failing ?w ?c] => destruct (failing w c) eqn:?
    | |- context [decide (?p ∈ ?s)] => destruct (decide (p ∈ s))
    | |- context [bool_decide (?p ∈ ?s)] => destruct (bool_decide_reflect (p ∈ s))
    | |- context [if sessionOk ?w then _ else _] => destruct (sessionOk w) eqn:?
    | |- context [match watchEvent ?w with _ => _ end] =>
        destruct (watchEvent w) as [[[|] ?]|] eqn:?
    end).

Ltac zk_case_in H :=
  repeat (cbn [logCall setNodes nodes calls failing sessionOk watchEvent fst snd] in *;
    match type of H with
    | context [failing ?w ?c] => destruct (failing w c) eqn:?
    | context [decide (?p ∈ ?s)] => destruct (decide (p ∈ s))
    | context [bool_decide (?p ∈ ?s)] => destruct (bool_decide_reflect (p ∈ s))
    | context [if sessionOk ?w then _ else _] => destruct (sessionOk w) eqn:?
    end).

Ltac split_last :=
  match goal with |- exists pre, ?l = _ ++ [_] => exists (removelast l); reflexivity end.

(** [Open] only reads the ensemble: it never creates a node nor closes the
    connection; its calls are a prefix of [Dial] of the joined addresses
    followed by [ExistsW "/initialized"]. *)
Theorem Open_read_only info w :
  nodes (fst (Open info w)) = nodes w /\
  exists k, calls (fst (Open info w)) =
    calls w ++ firstn k [ZkDial (join "," (Addrs info)); ZkExistsW "/initialized"].
Proof.
  unfold Open, open, waitForInitialization, bind, Dial, ExistsW, request, ret, fail.
  destruct (Addrs info) as [|a l].
  - split; [reflexivity|]. exists 0. rewrite app_nil_r. reflexivity.
  - set (s := join "," (a :: l)). zk_case;
      (split; [reflexivity|]); cbn [fst calls logCall];
      first [ exists 0; rewrite app_nil_r; reflexivity
            | exists 1; reflexivity
            | exists 2; rewrite <- app_assoc; reflexivity ].
Qed.

(** The outcome of [Open] when both calls reach the server: it succeeds iff
    the session comes up and either /initialized exists or the watch on it
    fires with an Ok event; otherwise the error says why: no session, a
    session error carrying the event, or the timeout. *)
Theorem Open_outcome info w :
  Addrs info <> [] ->
  failing w (ZkDial (join "," (Addrs info))) = None ->
  failing w (ZkExistsW "/initialized") = None ->
  (snd (Open info w) = Ok tt <->
     sessionOk w = true /\
     ("/initialized" ∈ nodes w \/ exists ev, watchEvent w = Some (true, ev))) /\
  (sessionOk w = false -> snd (Open info w) = Err "Could not connect to zookeeper") /\
  (sessionOk w = true -> "/initialized" ∉ nodes w -> watchEvent w = None ->
     snd (Open info w) = Err "timed out waiting for initialization") /\
  (forall ev, sessionOk w = true -> "/initialized" ∉ nodes w ->
     watchEvent w = Some (false, ev) ->
     snd (Open info w) = Err (String.append "session error: " ev)).
Proof.
  intros Ha Hd He.
  unfold Open, open, waitForInitialization, bind, Dial, ExistsW, request, ret, fail.
  destruct (Addrs info) as [|a l]; [contradiction|].
  set (s := join "," (a :: l)) in *. cbn [logCall failing]. rewrite Hd. cbn [logCall sessionOk].
  destruct (sessionOk w) eqn:Hs.
  - cbn [logCall failing nodes watchEvent fst snd]. rewrite He.
    destruct (bool_decide_reflect ("/initialized" ∈ nodes w)) as [Hin|Hin].
    + split; [split; [intros _; split; [reflexivity|left; exact Hin]|reflexivity]|].
      split; [discriminate|]. split; [intros _ Hn; contradiction|intros ev _ Hn; contradiction].
    + destruct (watchEvent w) as [[[|] ev]|] eqn:Hw; cbn [fst snd].
      * split; [split; [intros _; split; [reflexivity|right; exists ev; reflexivity]|reflexivity]|].
        split; [discriminate|]. split; [discriminate|intros ev' _ _ H; discriminate].
      * split; [split; [discriminate|intros [_ [H|[ev' H]]]; [contradiction|discriminate]]|].
        split; [discriminate|]. split; [discriminate|].
        intros ev' _ _ H. injection H as <-. reflexivity.
      * split; [split; [discriminate|intros [_ [H|[ev' H]]]; [contradiction|discriminate]]|].
        split; [discriminate|]. split; [reflexivity|intros ev' _ _ H; discriminate].
  - cbn [fst snd]. split; [split; [discriminate|intros [H _]; discriminate]|].
    split; [reflexivity|]. split; [discriminate|intros ev H; discriminate].
Qed.

(** [Initialize] closes the connection exactly when [open] succeeded and
    [initialize] then failed, and [Close] is then its last call; a
    successful [Initialize] never closes. *)
Theorem Initialize_close_on_failure info w :
  exists new, calls (fst (Initialize info w)) = calls w ++ new /\
    (In ZkClose new <->
       snd (open info w) = Ok tt /\ exists e, snd (Initialize info w) = Err e) /\
    (In ZkClose new -> exists pre, new = pre ++ [ZkClose]).
Proof.
  unfold Initialize, initialize, initialized, open, bind, Dial, Exists, Create, Close, request, ret, fail.
  destruct (Addrs info) as [|a l].
  - exists []. split; [rewrite app_nil_r; reflexivity|].
    split; [split; [intros []|intros [H _]; discriminate]|intros []].
  - set (s := join "," (a :: l)). zk_case; cbn [fst snd calls logCall nodes setNodes];
      (eexists; split; [rewrite <- ?app_assoc; reflexivity|]);
      cbn [app];
      (split; [split;
                 [ cbn [In]; intros Hc;
                   first [ split; [reflexivity|eexists; reflexivity]
                         | exfalso; intuition discriminate ]
                 | intros [H1 [e1 H2]];
                   first [ discriminate | cbn [In]; repeat (first [left; reflexivity | right]) ] ]
              | cbn [In]; intros Hc; first [split_last | exfalso; intuition discriminate] ]).
Qed.

Lemma Initialize_ok_inv info w w1 st :
  Initialize info w = (w1, Ok st) ->
  Addrs info <> [] /\ failing w1 = failing w /\ sessionOk w1 = true /\
  failing w (ZkDial (join "," (Addrs info))) = None /\
  failing w (ZkExists "/initialized") = None /\ "/initialized" ∈ nodes w1 /\
  watchEvent w1 = watchEvent w.
Proof.
  unfold Initialize, initialize, initialized, open, bind, Dial, Exists, Create, Close, request, ret, fail.
  destruct (Addrs info) as [|a l]; [intros H; discriminate|].
  set (s := join "," (a :: l)). intros H. zk_case_in H; try discriminate;
    injection H as <- _; cbn [failing sessionOk nodes watchEvent];
    (split; [discriminate|]); repeat split; try assumption; try reflexivity; set_solver.
Qed.

(** [Initialize] is idempotent: once it has succeeded, running it again on
    the resulting ensemble succeeds with no node created: it only dials and
    checks /initialized. *)
Theorem Initialize_idempotent info w w1 st :
  Initialize info w = (w1, Ok st) ->
  snd (Initialize info w1) = Ok tt /\
  nodes (fst (Initialize info w1)) = nodes w1 /\
  calls (fst (Initialize info w1)) =
    calls w1 ++ [ZkDial (join "," (Addrs info)); ZkExists "/initialized"].
Proof.
  intros H. destruct (Initialize_ok_inv info w w1 st H) as [Ha [Hf [Hs [Hd [He [Hin _]]]]]].
  unfold Initialize, initialize, initialized, open, bind, Dial, Exists, request, ret.
  destruct (Addrs info) as [|a l]; [contradiction|].
  set (s := join "," (a :: l)) in *.
  cbn [logCall failing sessionOk nodes calls]. rewrite Hf, Hd, Hs. cbn [logCall failing].
  rewrite Hf, He. cbn [nodes calls fst snd].
  rewrite bool_decide_true by exact Hin.
  cbn. split; [reflexivity|]. split; [reflexivity|]. rewrite <- app_assoc. reflexivity.
Qed.

Lemma not_elem_of_add (x y : string) (X : gset string) :
  x <> y -> x ∉ X -> x ∉ ({[y]} ∪ X).
Proof. intros Hne Hx. rewrite elem_of_union, elem_of_singleton. tauto. Qed.

(** An ensemble left half initialized (one of the skeleton nodes present,
    /initialized missing) can never be initialized: [Initialize] fails and
    /initialized is still missing afterwards; when every call reaches the
    server the error is "node exists" and the connection is closed last. *)
Theorem Initialize_partial info w p :
  In p skeleton -> p ∈ nodes w -> "/initialized" ∉ nodes w ->
  (exists e, snd (Initialize info w) = Err e) /\
  ("/initialized" ∉ nodes (fst (Initialize info w))) /\
  ((forall c, failing w c = None) -> sessionOk w = true -> Addrs info <> [] ->
     snd (Initialize info w) = Err "node exists" /\
     exists pre, calls (fst (Initialize info w)) = pre ++ [ZkClose]).
Proof.
  intros Hp Hpn Hi.
  unfold Initialize, initialize, initialized, open, bind, Dial, Exists, Create, Close, request, ret, fail.
  destruct (Addrs info) as [|a l].
  - split; [eexists; reflexivity|]. split; [exact Hi|]. intros _ _ Hne; contradiction.
  - set (s := join "," (a :: l)).
    unfold skeleton in Hp. cbn [In] in Hp.
    destruct Hp as [<-|[<-|[<-|[<-|[<-|[]]]]]]; zk_case;
      try (exfalso; first
             [ contradiction
             | match goal with n : ?x ∉ _ |- _ =>
                 apply n; repeat apply elem_of_union_r; exact Hpn end ]);
      (split; [eexists; reflexivity|]);
      (split; [cbn [nodes setNodes logCall fst];
               repeat (apply not_elem_of_add; [discriminate|]); exact Hi|]);
      intros Hf Hs Hne;
      try (match goal with E : failing _ ?c = Some _ |- _ => rewrite Hf in E; discriminate end);
      try congruence;
      (split; [reflexivity|cbn [calls fst logCall]; eexists; reflexivity]).
Qed.

(** Witnesses. *)

Definition halfWorld : World := mkWorld {["/machines"]} [] (fun _ => None) true None.

Lemma Open_outcome_witness :
  Addrs sampleInfo <> [] /\
  snd (Open sampleInfo freshWorld) = Err "timed out waiting for initialization".
Proof.
  split; [discriminate|].
  destruct (Open_outcome sampleInfo freshWorld ltac:(discriminate) eq_refl eq_refl)
    as [_ [_ [H _]]].
  apply H; [reflexivity|apply not_elem_of_empty|reflexivity].
Defined.

Lemma Initialize_idempotent_witness :
  Initialize sampleInfo freshWorld =
    (fst (Initialize sampleInfo freshWorld), Ok tt) /\
  calls (fst (Initialize sampleInfo (fst (Initialize sampleInfo freshWorld)))) =
    calls (fst (Initialize sampleInfo freshWorld)) ++
      [ZkDial "localhost:2181"; ZkExists "/initialized"].
Proof.
  assert (H : Initialize sampleInfo freshWorld =
                (fst (Initialize sampleInfo freshWorld), Ok tt)) by (vm_compute; reflexivity).
  split; [exact H|].
  exact (proj2 (proj2 (Initialize_idempotent sampleInfo freshWorld _ tt H))).
Defined.

Lemma Initialize_partial_witness :
  snd (Initialize sampleInfo halfWorld) = Err "node exists".
Proof.
  refine (proj1 (proj2 (proj2 (Initialize_partial sampleInfo halfWorld "/machines" _ _ _))
                   (fun _ => eq_refl) eq_refl ltac:(discriminate))).
  - unfold skeleton; simpl; tauto.
  - unfold halfWorld; cbn [nodes]. set_solver.
  - unfold halfWorld; cbn [nodes]. set_solver.
Defined.

End OpenExtra.

(* ===================================================================== *)
(** ** Further properties of constraints (src/state/constraints.go)      *)
(* ===================================================================== *)

Module ConstraintsExtra.

Import StateConstraints ConstraintsFacts.

Lemma to_uint_nonnil n : N.to_uint n <> Decimal.Nil.
Proof.
  destruct (N.eq_dec n 0%N) as [->|Hn]; [discriminate|]. apply to_uint_not_nil. exact Hn.
Qed.

(** [strconv.Atoi] on a decimal rendering, with or without a minus sign. *)
Lemma Atoi_uint (neg : bool) d : d <> Decimal.Nil ->
  Atoi ((if neg then ["-"%char] else []) ++ uintDigits d) =
    (let v := Z.of_N (N.of_uint d) in
     let v := if neg then Z.opp v else v in
     if (- 2 ^ 63 <=? v)%Z && (v <=? 2 ^ 63 - 1)%Z then Some v else None).
Proof.
  intros Hd. pose proof (parseDigits_uintDigits d) as Hp.
  destruct d as [| d | d | d | d | d | d | d | d | d | d]; [contradiction| .. ];
    (destruct neg; unfold Atoi; cbn [uintDigits app] in Hp |- *;
     repeat match goal with
       | |- context [Ascii.eqb ?a ?b] =>
           let v := eval vm_compute in (Ascii.eqb a b) in
           change (Ascii.eqb a b) with v
       end;
     cbn iota beta; rewrite Hp; reflexivity).
Qed.

Section Uint.
Context {F : Float64}.

(** [parseUint64] on the decimal rendering of a number accepts exactly the
    numbers below 2^63 (the range of Go's [int]); with a minus sign in front
    it rejects every number but 0 ("-0" is read as 0). *)
Theorem parseUint64_decimal n :
  parseUint64 (sprintfD n) = (if (n <? 2 ^ 63)%N then Ok n else Err NotNonNegInt) /\
  parseUint64 ("-"%char :: sprintfD n) = (if (n =? 0)%N then Ok 0%N else Err NotNonNegInt).
Proof.
  pose proof (DecimalN.Unsigned.of_to n) as Ho. pose proof (to_uint_nonnil n) as Hnn.
  split.
  - unfold parseUint64.
    assert (Hne : sprintfD n <> []).
    { unfold sprintfD. destruct (N.to_uint n); cbn; congruence. }
    destruct (sprintfD n) as [|x xs] eqn:E; [contradiction|]. rewrite <- E.
    unfold sprintfD. pose proof (Atoi_uint false (N.to_uint n) Hnn) as HA. cbn [app] in HA.
    rewrite HA. cbv zeta. rewrite Ho.
    destruct (N.ltb_spec n (2 ^ 63)) as [Hlt|Hge].
    + assert (Hr : ((- 2 ^ 63 <=? Z.of_N n)%Z && (Z.of_N n <=? 2 ^ 63 - 1)%Z) = true).
      { apply andb_true_iff; split; apply Z.leb_le; lia. }
      rewrite Hr. destruct (Z.ltb_spec (Z.of_N n) 0) as [Hl|Hl]; [lia|]. rewrite N2Z.id. reflexivity.
    + assert (Hr : ((- 2 ^ 63 <=? Z.of_N n)%Z && (Z.of_N n <=? 2 ^ 63 - 1)%Z) = false).
      { apply andb_false_iff; right; apply Z.leb_gt; lia. }
      rewrite Hr. reflexivity.
  - unfold parseUint64.
    change ("-"%char :: sprintfD n) with (["-"%char] ++ uintDigits (N.to_uint n)).
    rewrite (Atoi_uint true (N.to_uint n) Hnn). cbv zeta. rewrite Ho.
    destruct (N.eqb_spec n 0) as [->|Hz].
    + reflexivity.
    + destruct ((- 2 ^ 63 <=? - Z.of_N n)%Z && (- Z.of_N n <=? 2 ^ 63 - 1)%Z); [|reflexivity].
      destruct (Z.ltb_spec (- Z.of_N n) 0) as [Hl|Hl]; [reflexivity|lia].
Qed.

End Uint.

Section Fields.
Context {F : Float64}.

Lemma lastByte_snoc (s : str) (ch : ascii) : lastByte (s ++ [ch]) = [ch].
Proof. unfold lastByte. rewrite rev_app_distr. reflexivity. Qed.

(** [setMem] strips one trailing M/G/T/P and scales the parsed amount by
    it; a value with no such suffix is parsed whole and counted in
    megabytes; a negative amount is refused, and so is a second [mem]. *)
Theorem setMem_suffix c s ch m val :
  mbSuffixes [ch] = Some m -> ParseFloat s = Some val ->
  setMem c (s ++ [ch]) =
    match Mem c with
    | Some _ => Err AlreadySet
    | None => if fltz val then Err NotNonNegFloat
              else Ok (assign c (FMem (ceilUint64 (fmul val m))))
    end /\
  (s <> [] -> mbSuffixes (lastByte s) = None ->
   setMem c s =
    match Mem c with
    | Some _ => Err AlreadySet
    | None => if fltz val then Err NotNonNegFloat
              else Ok (assign c (FMem (ceilUint64 (fmul val (fconst 1)))))
    end).
Proof.
  intros Hm Hv. split.
  - unfold setMem. destruct (Mem c) as [x|]; [reflexivity|]. cbv zeta.
    remember (s ++ [ch]) as t eqn:Et. destruct t as [|y ys].
    + symmetry in Et. apply app_eq_nil in Et as [_ Hc]. discriminate.
    + rewrite Et, lastByte_snoc, Hm, removelast_last, Hv.
      destruct (fltz val); reflexivity.
  - intros Hne Hs. unfold setMem. destruct (Mem c) as [x|]; [reflexivity|]. cbv zeta.
    destruct s as [|y ys]; [contradiction|]. rewrite Hs, Hv.
    destruct (fltz val); reflexivity.
Qed.

Lemma fieldSet_assign_mono c f g : fieldSet (assign c f) g = false -> fieldSet c g = false.
Proof. destruct f, g; cbn; auto; discriminate. Qed.

Lemma fieldSet_assign_same c f g : fieldName f = fieldName g -> fieldSet (assign c f) g = true.
Proof. destruct f, g; cbn; intros H; try reflexivity; vm_compute in H; discriminate. Qed.

Lemma fieldSet_assign_swap c f g :
  fieldSet c f = false -> fieldSet (assign c f) g = false -> fieldSet (assign c g) f = false.
Proof. destruct f, g; cbn; auto; discriminate. Qed.

Lemma assign_comm c f g :
  fieldSet (assign c f) g = false -> assign (assign c f) g = assign (assign c g) f.
Proof. destruct f, g; cbn; try discriminate; reflexivity. Qed.

Lemma fieldName_canonical f : In (fieldName f) canonicalNames.
Proof. destruct f; cbn; tauto. Qed.

(** What a successful [setRaw] does: it assigns one field that was unset,
    named by the token, and the same token assigns the same value in any
    constraints where that field is unset. *)
Lemma setRaw_shape c raw c' :
  setRaw c raw = Ok c' ->
  exists f, tokName raw = fieldName f /\ fieldSet c f = false /\ c' = assign c f /\
    forall c0, fieldSet c0 f = false -> setRaw c0 raw = Ok (assign c0 f).
Proof.
  unfold setRaw, tokName. destruct (indexEq raw) as [[|k]|] eqn:Hi; try discriminate.
  set (name := firstn (S k) raw). set (s := skipn (S (S k)) raw).
  destruct (streqb name (lit "arch")) eqn:E1.
  { unfold withName, setArch. destruct (Arch c) eqn:Ea; [discriminate|].
    destruct (existsb _ _) eqn:Eok; [|discriminate]. intros H; injection H as <-.
    exists (FArch s). apply streqb_true in E1.
    split; [exact E1|]. split; [cbn; rewrite Ea; reflexivity|]. split; [reflexivity|].
    intros c0 H0. cbn in H0. destruct (Arch c0); [discriminate|]. try rewrite Eok; reflexivity. }
  destruct (streqb name (lit "cpu-cores")) eqn:E2.
  { unfold withName, setCpuCores. destruct (CpuCores c) eqn:Ea; [discriminate|].
    destruct (parseUint64 s) as [v|] eqn:Ev; [|discriminate]. intros H; injection H as <-.
    exists (FCpuCores v). apply streqb_true in E2.
    split; [exact E2|]. split; [cbn; rewrite Ea; reflexivity|]. split; [reflexivity|].
    intros c0 H0. cbn in H0. destruct (CpuCores c0); [discriminate|]. try rewrite Ev; reflexivity. }
  destruct (streqb name (lit "cpu-power")) eqn:E3.
  { unfold withName, setCpuPower. destruct (CpuPower c) eqn:Ea; [discriminate|].
    destruct (parseUint64 s) as [v|] eqn:Ev; [|discriminate]. intros H; injection H as <-.
    exists (FCpuPower v). apply streqb_true in E3.
    split; [exact E3|]. split; [cbn; rewrite Ea; reflexivity|]. split; [reflexivity|].
    intros c0 H0. cbn in H0. destruct (CpuPower c0); [discriminate|]. try rewrite Ev; reflexivity. }
  destruct (streqb name (lit "mem")) eqn:E4; [|discriminate].
  unfold withName, setMem. destruct (Mem c) eqn:Ea; [discriminate|]. cbv zeta.
  match goal with |- context [match ?val with Ok v => Ok _ | Err e => Err e end] =>
    destruct val as [v|] eqn:Ev end; [|discriminate].
  intros H; injection H as <-.
  exists (FMem v). apply streqb_true in E4.
  split; [exact E4|]. split; [cbn; rewrite Ea; reflexivity|]. split; [reflexivity|].
  intros c0 H0. cbn in H0. destruct (Mem c0); [discriminate|]. cbv zeta. try rewrite Ev; reflexivity.
Qed.

Lemma setRaws_perm l l' c c' :
  Permutation l l' -> setRaws c l = Ok c' -> setRaws c l' = Ok c'.
Proof.
  intros Hp. revert c. induction Hp as [|x l l' Hp IH|y x l|l l' l'' H1 IH1 H2 IH2]; intros c H.
  - exact H.
  - cbn [setRaws] in H |- *. destruct x as [|a xs]; [apply IH; exact H|].
    destruct (setRaw c (a :: xs)); [apply IH; exact H|exact H].
  - cbn [setRaws] in H |- *.
    destruct y as [|a ys], x as [|b xs]; try exact H.
    match type of H with context [setRaw c ?r] =>
      destruct (setRaw c r) as [c1|] eqn:Ey; [|discriminate] end.
    match type of H with context [setRaw c1 ?r] =>
      destruct (setRaw c1 r) as [c2|] eqn:Ex; [|discriminate] end.
    destruct (setRaw_shape _ _ _ Ey) as [f1 [_ [Hf1 [-> Hy]]]].
    destruct (setRaw_shape _ _ _ Ex) as [f2 [_ [Hf2 [-> Hx]]]].
    rewrite (Hx c (fieldSet_assign_mono c f1 f2 Hf2)).
    rewrite (Hy (assign c f2) (fieldSet_assign_swap c f1 f2 Hf1 Hf2)).
    rewrite <- (assign_comm c f1 f2 Hf2). exact H.
  - apply IH2, IH1, H.
Qed.

Lemma parseArgs_tokens c args : parseArgs c args = setRaws c (tokens args).
Proof.
  revert c. induction args as [|a rest IH]; intros c; [reflexivity|].
  unfold tokens. cbn [parseArgs flat_map]. rewrite setRaws_app.
  destruct (setRaws c _); [apply IH|reflexivity].
Qed.

(** [ParseConstraints] does not depend on the order of the constraints nor
    on how they are split between arguments: whenever it succeeds, any
    arguments holding a permutation of the same pieces give the same
    constraints. *)
Theorem ParseConstraints_perm args args' c :
  ParseConstraints args = Ok c ->
  Permutation (tokens args) (tokens args') ->
  ParseConstraints args' = Ok c.
Proof.
  unfold ParseConstraints. rewrite !parseArgs_tokens. intros H Hp.
  exact (setRaws_perm _ _ _ _ Hp H).
Qed.

Lemma setRaws_fields c raws c' :
  setRaws c raws = Ok c' ->
  exists fs, map tokName (filter nonEmpty raws) = map fieldName fs /\
    NoDup (map fieldName fs) /\ Forall (fun f => fieldSet c f = false) fs.
Proof.
  revert c. induction raws as [|raw rest IH]; intros c H.
  - exists []. split; [reflexivity|]. split; constructor.
  - cbn [setRaws] in H. destruct raw as [|x xs].
    + exact (IH c H).
    + destruct (setRaw c (x :: xs)) as [c1|] eqn:E; [|discriminate].
      destruct (setRaw_shape _ _ _ E) as [f [Hn [Hf [-> _]]]].
      destruct (IH _ H) as [fs [Hm [Hnd Hall]]].
      exists (f :: fs).
      change (map tokName (filter nonEmpty ((x :: xs) :: rest)))
        with (tokName (x :: xs) :: map tokName (filter nonEmpty rest)).
      rewrite Hm, Hn.
      split; [reflexivity|]. split.
      * constructor; [|exact Hnd].
        intros Hin. apply list_elem_of_In, in_map_iff in Hin as [g [Hg Hin]].
        rewrite Forall_forall in Hall. specialize (Hall g (proj2 (list_elem_of_In _ _) Hin)).
        rewrite (fieldSet_assign_same c f g (eq_sym Hg)) in Hall. discriminate.
      * constructor; [exact Hf|].
        eapply Forall_impl; [exact Hall|]. intros g. apply fieldSet_assign_mono.
Qed.

(** A successful [ParseConstraints] has seen each constraint name at most
    once, and only the four known names: a repeated name (even with the
    same value) is an error. *)
Theorem ParseConstraints_names args c :
  ParseConstraints args = Ok c ->
  NoDup (rawNames args) /\ Forall (fun n => In n canonicalNames) (rawNames args).
Proof.
  unfold ParseConstraints. rewrite parseArgs_tokens. intros H.
  destruct (setRaws_fields _ _ _ H) as [fs [Hm [Hnd _]]].
  change (rawNames args) with (map tokName (filter nonEmpty (tokens args))).
  rewrite Hm. split; [exact Hnd|].
  apply Forall_forall. intros n Hin. apply list_elem_of_In, in_map_iff in Hin as [f [<- _]].
  apply fieldName_canonical.
Qed.

End Fields.

Lemma newConstraintsDoc_read cons :
  mkConstraints (dArch (newConstraintsDoc cons)) (dCpuCores (newConstraintsDoc cons))
    (dCpuPower (newConstraintsDoc cons)) (dMem (newConstraintsDoc cons)) = cons.
Proof. destruct cons; reflexivity. Qed.

(** Creating the constraints document of [id] in a transaction of its own
    succeeds exactly when there is none yet; reading it back then gives the
    constraints stored, and the documents of other ids are untouched.  When
    one exists already, the transaction aborts. *)
Theorem createConstraints_read st id cons :
  match Run [createConstraintsOp st id cons] (db st) with
  | Ok d =>
      readConstraints st id = Err (NotFoundf "constraints") /\
      readConstraints (setDb st d) id = Ok cons /\
      forall id', id' <> id -> readConstraints (setDb st d) id' = readConstraints st id'
  | Err e => e = ErrAborted /\ exists c0, readConstraints st id = Ok c0
  end.
Proof.
  unfold Run, createConstraintsOp, readConstraints, assertHolds. cbn [forallb opAssert opC opId].
  destruct (db st !! (constraintsName st, id)) as [doc|] eqn:Hd; cbn [andb].
  - split; [reflexivity|]. eexists. reflexivity.
  - cbn [fold_left applyOp opChange opC opId setDb db constraintsName].
    split; [reflexivity|]. split.
    + rewrite lookup_insert_eq. rewrite newConstraintsDoc_read. reflexivity.
    + intros id' Hne. rewrite lookup_insert_ne; [reflexivity|congruence].
Qed.

(** [writeConstraints] replaces the constraints of an existing document
    (all four fields, unset ones included), leaving other ids untouched; on
    a missing document it fails with "cannot set constraints" wrapping the
    aborted transaction, and changes nothing. *)
Theorem writeConstraints_read st id cons :
  (snd (writeConstraints st id cons) = Ok tt /\
   (exists c0, readConstraints st id = Ok c0) /\
   readConstraints (fst (writeConstraints st id cons)) id = Ok cons /\
   forall id', id' <> id ->
     readConstraints (fst (writeConstraints st id cons)) id' = readConstraints st id') \/
  (writeConstraints st id cons = (st, Err (CannotSetConstraints ErrAborted)) /\
   readConstraints st id = Err (NotFoundf "constraints")).
Proof.
  unfold writeConstraints, Run, readConstraints, assertHolds. cbn [forallb opAssert opC opId].
  destruct (db st !! (constraintsName st, id)) as [doc|] eqn:Hd; cbn [andb].
  - left. cbn [fold_left applyOp opChange opC opId setDb db fst snd constraintsName].
    split; [reflexivity|]. split; [eexists; reflexivity|]. split.
    + rewrite lookup_insert_eq. rewrite newConstraintsDoc_read. reflexivity.
    + intros id' Hne. rewrite lookup_insert_ne; [reflexivity|congruence].
  - right. split; reflexivity.
Qed.

(** Witnesses. *)

Lemma setMem_suffix_witness :
  (@mbSuffixes exactFloat64 ["G"%char] = Some 1024%N) /\
  setMem (F:=exactFloat64) emptyConstraints (lit "4" ++ ["G"%char]) =
    Ok (mkConstraints None None None (Some 4096%N)).
Proof.
  split; [reflexivity|].
  exact (proj1 (@setMem_suffix exactFloat64 emptyConstraints (lit "4") "G"%char 1024%N 4%N
                  eq_refl eq_refl)).
Defined.

Lemma ParseConstraints_perm_witness :
  ParseConstraints (F:=exactFloat64) [lit "cpu-cores=2"; lit " mem=4G "] =
    Ok (mkConstraints None (Some 2%N) None (Some 4096%N)).
Proof.
  apply (@ParseConstraints_perm exactFloat64 [lit "mem=4G cpu-cores=2"]).
  - vm_compute. reflexivity.
  - vm_compute. apply perm_swap.
Defined.

Lemma ParseConstraints_names_witness :
  NoDup (rawNames [lit "mem=4G cpu-cores=2"]).
Proof.
  apply (proj1 (@ParseConstraints_names exactFloat64 [lit "mem=4G cpu-cores=2"]
                  (mkConstraints None (Some 2%N) None (Some 4096%N)) ltac:(vm_compute; reflexivity))).
Defined.

End ConstraintsExtra.
